(** * Image upload service: a shallow embedding of [internal/service]

    The development follows [internal/service/image_service.go],
    [internal/models/models.go] and [internal/repository/s3_repository.go].
    Go strings are byte strings ([string] over [ascii]); Go [int] is a
    64-bit two's complement integer, kept as a [Z] with the wrap-around
    written where the code converts or subtracts.  The object store is a
    finite map from keys to objects together with the outcome of the
    SDK calls still to come; every call to a collaborator is recorded in
    a trace so that "was never attempted" can be stated. *)

From Stdlib Require Import ZArith Ascii String List Lia.
From stdpp Require Import base tactics option list strings gmap pretty
  sorting.

Local Open Scope Z_scope.

(** ** The Go library functions the service calls *)

Module Go.

(** [s[:n]] and [s[n:]] on byte strings. *)
Fixpoint slice_to (n : nat) (s : string) : string :=
  match n, s with
  | S n', String c s' => String c (slice_to n' s')
  | _, _ => ""
  end.

Fixpoint slice_from (n : nat) (s : string) : string :=
  match n, s with
  | S n', String _ s' => slice_from n' s'
  | _, _ => s
  end.

(** [os.IsPathSeparator] on Unix. *)
Definition IsPathSeparator (c : ascii) : bool :=
  bool_decide (c = "/"%char).

(** [filepath.Ext]: the loop
    [for i := len(path)-1; i >= 0 && !IsPathSeparator(path[i]); i--]
    returning [path[i:]] at the first dot met; [n] is [i+1]. *)
Fixpoint Ext_loop (path : string) (n : nat) : string :=
  match n with
  | O => ""
  | S i =>
      match String.get i path with
      | Some c =>
          if IsPathSeparator c then ""
          else if bool_decide (c = "."%char) then slice_from i path
          else Ext_loop path i
      | None => ""
      end
  end.

Definition Ext (path : string) : string :=
  Ext_loop path (String.length path).

(** [strings.HasSuffix] and [strings.TrimSuffix]. *)
Definition HasSuffix (s suffix : string) : bool :=
  bool_decide (String.length suffix <= String.length s)%nat
  && bool_decide
       (slice_from (String.length s - String.length suffix) s = suffix).

Definition TrimSuffix (s suffix : string) : string :=
  if HasSuffix s suffix
  then slice_to (String.length s - String.length suffix) s
  else s.

(** [strings.ToLower].  The ASCII branch is the code of the standard
    library; for a string with a byte above 0x7F Go maps
    [unicode.ToLower] over the runes, which is kept abstract as
    [lowerRunes]. *)
Definition isUpper (c : ascii) : bool :=
  let n := N_of_ascii c in ((65 <=? n) && (n <=? 90))%N.

Definition lowerByte (c : ascii) : ascii :=
  if isUpper c then ascii_of_N (N_of_ascii c + 32) else c.

Fixpoint isASCII (s : string) : bool :=
  match s with
  | "" => true
  | String c s' => (N_of_ascii c <? 128)%N && isASCII s'
  end.

Fixpoint lowerBytes (s : string) : string :=
  match s with
  | "" => ""
  | String c s' => String (lowerByte c) (lowerBytes s')
  end.

Definition ToLower (lowerRunes : string → string) (s : string) : string :=
  if isASCII s then lowerBytes s else lowerRunes s.

(** [strings.Split] with a one-byte separator. *)
Fixpoint Split (s : string) (sep : ascii) : list string :=
  match s with
  | "" => [""]
  | String c s' =>
      if bool_decide (c = sep) then "" :: Split s' sep
      else match Split s' sep with
           | p :: ps => String c p :: ps
           | [] => [String c ""]
           end
  end.

(** The verb [%d] of [fmt.Sprintf] on an [int]. *)
Definition fmt_d (n : Z) : string := pretty n.

(** Conversion [uint(n)] of an [int]. *)
Definition uint (n : Z) : Z := n mod 2 ^ 64.

(** An [int] result brought back into the 64-bit signed range. *)
Definition wrap_int (n : Z) : Z := (n + 2 ^ 63) mod 2 ^ 64 - 2 ^ 63.

(** *** [fmt.Sscanf(s, "%d", &n)]

    The scanner skips leading space runes ([SkipSpace]; a newline is an
    error for [Sscanf]), accepts one sign, then the longest run of
    bytes of ["0123456789_"] ([scanNumber]), and hands that token to
    [strconv.ParseInt(tok, 10, 64)].  Input left after the token is not
    an error. *)

Definition byteIn (lo hi : N) (c : ascii) : bool :=
  let n := N_of_ascii c in ((lo <=? n) && (n <=? hi))%N.

Definition isDigit (c : ascii) : bool := byteIn 48 57 c.

(** [SkipSpace]: the space runes of [fmt] are U+0009..U+000D, U+0020,
    U+0085, U+00A0, U+1680, U+2000..U+200A, U+2028, U+2029, U+202F,
    U+205F and U+3000, here by their UTF-8 encodings. [None] is the
    error "unexpected newline". *)
Fixpoint SkipSpace (s : string) : option string :=
  match s with
  | "" => Some ""
  | String c s1 =>
      if byteIn 10 10 c then None
      else if byteIn 9 13 c || byteIn 32 32 c then SkipSpace s1
      else if byteIn 194 194 c then
        match s1 with
        | String d s2 =>
            if byteIn 133 133 d || byteIn 160 160 d then SkipSpace s2
            else Some s
        | "" => Some s
        end
      else if byteIn 225 227 c then
        match s1 with
        | String d (String e s3) =>
            if (byteIn 225 225 c && byteIn 154 154 d && byteIn 128 128 e)
               || (byteIn 226 226 c && byteIn 128 128 d
                   && (byteIn 128 138 e || byteIn 168 169 e
                       || byteIn 175 175 e))
               || (byteIn 226 226 c && byteIn 129 129 d
                   && byteIn 159 159 e)
               || (byteIn 227 227 c && byteIn 128 128 d
                   && byteIn 128 128 e)
            then SkipSpace s3
            else Some s
        | _ => Some s
        end
      else Some s
  end.

(** [accept(sign)]: at most one of [+] and [-]; the result is whether a
    minus was read and the input after it. *)
Definition acceptSign (s : string) : bool * string :=
  match s with
  | String "-" s' => (true, s')
  | String "+" s' => (false, s')
  | _ => (false, s)
  end.

(** [scanNumber]: the longest prefix made of digits and underscores. *)
Fixpoint scanNumber (s : string) : string :=
  match s with
  | String c s' =>
      if isDigit c || bool_decide (c = "_"%char)
      then String c (scanNumber s')
      else ""
  | "" => ""
  end.

(** The digit loop of [strconv.ParseUint] in base 10: [None] is a
    syntax error (a byte that is no digit).  The running value is
    kept unbounded; the range is checked by the caller, which agrees
    with Go's check at every step since the value never decreases. *)
Fixpoint parseDigits (acc : Z) (s : string) : option Z :=
  match s with
  | "" => Some acc
  | String c s' =>
      if isDigit c
      then parseDigits (acc * 10 + (Z.of_N (N_of_ascii c) - 48)) s'
      else None
  end.

(** [strconv.ParseInt(tok, 10, 64)] on the magnitude and the sign. *)
Definition ParseInt (neg : bool) (digits : string) : option Z :=
  match digits with
  | "" => None
  | _ =>
      match parseDigits 0 digits with
      | None => None
      | Some un =>
          if neg then (if un <=? 2 ^ 63 then Some (- un) else None)
          else (if un <? 2 ^ 63 then Some un else None)
      end
  end.

Definition Sscanf_d (s : string) : option Z :=
  match SkipSpace s with
  | None => None
  | Some s1 =>
      let '(neg, s2) := acceptSign s1 in
      ParseInt neg (scanNumber s2)
  end.

End Go.

(** ** [internal/models] *)

Record CompressSpec := mkCompressSpec { Width : Z; Height : Z }.

Global Instance CompressSpec_eq_dec : EqDecision CompressSpec.
Proof. solve_decision. Defined.

(** The fields [Width] and [Height] of [models.ImageResult]; the plain
    names are those of [CompressSpec] above. *)
Record ImageResult := mkImageResult
  { irWidth : Z; irHeight : Z; URL : string }.

(** A Go slice value is either [nil] or a (possibly empty) sequence;
    JSON encoding tells them apart ([null] against [[]]). *)
Inductive slice (A : Type) : Type :=
  | nil_slice
  | slice_of (elems : list A).
Arguments nil_slice {A}.
Arguments slice_of {A} elems.

Definition elements {A} (s : slice A) : list A :=
  match s with nil_slice => [] | slice_of l => l end.

(** The builtin [append(s, x)]. *)
Definition append {A} (s : slice A) (x : A) : slice A :=
  slice_of (elements s ++ [x]).

Record UploadResponse := mkUploadResponse
  { OriginalImage : ImageResult;
    CompressedImages : slice ImageResult;
    Message : string }.

(** ** Content type of a format tag *)

Definition getContentType (format : string) : string :=
  if bool_decide (format = "jpeg") then "image/jpeg"
  else if bool_decide (format = "png") then "image/png"
  else "application/octet-stream".

(** ** Errors and results *)

(** A Go [error]: a plain message, or [fmt.Errorf(msg + "%w", cause)]. *)
Inductive error : Type :=
  | errors_New (msg : string)
  | Errorf_w (msg : string) (cause : error).

Fixpoint Error (e : error) : string :=
  match e with
  | errors_New msg => msg
  | Errorf_w msg cause => msg +:+ Error cause
  end.

(** A Go pair [(value, err)] with exactly one side meaningful. *)
Inductive result (A : Type) : Type :=
  | Ok (a : A)
  | Err (e : error).
Arguments Ok {A} a.
Arguments Err {A} e.

Definition is_ok {A} (r : result A) : bool :=
  match r with Ok _ => true | Err _ => false end.

(** ** The world the service runs in *)

Record S3Config := mkS3Config
  { Endpoint : string; BucketName : string; Region : string }.

Record Object := mkObject
  { Body : list Byte.byte; ContentType : string }.

(** Calls to collaborators, in the order they are made. *)
Inductive Event : Type :=
  | CallResize (width height : Z)
  | CallEncode (format : string)
  | CallPut (key : string) (contentType : string)
  | CallHead (key : string)
  | LogPrintf (line : string).

(** [objects] is the bucket; [faults] gives, for each SDK call still to
    come, the error it returns if any (an exhausted list means the
    remaining calls go through); [clock] is what [time.Now().UnixNano()]
    reads; [trace] is the history of calls, most recent last. *)
Record World := mkWorld
  { objects : gmap string Object;
    faults : list (option error);
    cfg : S3Config;
    clock : Z;
    trace : list Event }.

Definition M (A : Type) : Type := World → A * World.

Global Instance M_ret : MRet M := λ A a w, (a, w).
Global Instance M_bind : MBind M :=
  λ A B f m w, let '(a, w') := m w in f a w'.

Definition emit (e : Event) : M unit :=
  λ w, (tt, mkWorld (objects w) (faults w) (cfg w) (clock w) (trace w ++ [e])).

Definition read_cfg : M S3Config := λ w, (cfg w, w).

Definition time_Now_UnixNano : M Z := λ w, (clock w, w).

(** The next SDK call consumes the head of [faults]. *)
Definition next_fault : M (option error) :=
  λ w, match faults w with
       | [] => (None, w)
       | f :: fs =>
           (f, mkWorld (objects w) fs (cfg w) (clock w) (trace w))
       end.

Definition store (key : string) (o : Object) : M unit :=
  λ w, (tt, mkWorld (<[key := o]> (objects w)) (faults w) (cfg w)
              (clock w) (trace w)).

Definition lookup_object (key : string) : M (option Object) :=
  λ w, (objects w !! key, w).

(** [s3.Client.PutObject]: overwrites the key on success. *)
Definition PutObject (key : string) (body : list Byte.byte)
    (contentType : string) : M (result unit) :=
  emit (CallPut key contentType);;
  f ← next_fault;
  match f with
  | Some err => mret (Err err)
  | None => store key (mkObject body contentType);; mret (Ok tt)
  end.

(** [s3.Client.HeadObject]: an error for a missing key. *)
Definition HeadObject (key : string) : M (result unit) :=
  emit (CallHead key);;
  f ← next_fault;
  match f with
  | Some err => mret (Err err)
  | None =>
      o ← lookup_object key;
      match o with
      | Some _ => mret (Ok tt)
      | None => mret (Err (errors_New "NotFound"))
      end
  end.

(** ** [internal/repository] *)

Definition fileURL (c : S3Config) (fileName : string) : string :=
  if bool_decide (Endpoint c ≠ "")
  then Endpoint c +:+ "/" +:+ BucketName c +:+ "/" +:+ fileName
  else "https://" +:+ BucketName c +:+ ".s3." +:+ Region c
         +:+ ".amazonaws.com/" +:+ fileName.

Definition UploadFile (fileBytes : list Byte.byte) (fileName : string)
    (contentType : string) : M (result string) :=
  r ← PutObject fileName fileBytes contentType;
  match r with
  | Err err => mret (Err err)
  | Ok _ => c ← read_cfg; mret (Ok (fileURL c fileName))
  end.

Definition GetFile (fileName : string) : M (result bool) :=
  r ← HeadObject fileName;
  match r with
  | Err err => mret (Err err)
  | Ok _ => mret (Ok true)
  end.

(** ** The image libraries *)

(** [image.Point] and [image.Rectangle]. *)
Record Point := mkPoint { X : Z; Y : Z }.
Record Rectangle := mkRectangle { Min : Point; Max : Point }.

Definition Dx (r : Rectangle) : Z := Go.wrap_int (X (Max r) - X (Min r)).
Definition Dy (r : Rectangle) : Z := Go.wrap_int (Y (Max r) - Y (Min r)).

(** What the service imports and this repository does not define: the
    [image.Image] interface with its registered decoders, the resizer of
    [github.com/nfnt/resize] (it returns no error), the two encoders,
    and the Unicode branch of [strings.ToLower]. *)
Class Imaging := {
  Image : Type;
  Bounds : Image → Rectangle;
  image_Decode : list Byte.byte → result (Image * string);
  resize_Resize : Z → Z → Image → Image;
  jpeg_Encode : Image → Z → result (list Byte.byte);
  png_Encode : Image → result (list Byte.byte);
  unicode_ToLower : string → string
}.

(** ** [internal/service] *)

Section Service.
Context `{Imaging}.

Definition decodeImage (fileBytes : list Byte.byte)
  : result (Image * string) :=
  image_Decode fileBytes.

(** Lines 47-48: the extension and the name it is trimmed from. *)
Definition fileExtOf (filename : string) : string :=
  Go.ToLower unicode_ToLower (Go.Ext filename).

Definition fileNameWithoutExtOf (filename : string) : string :=
  Go.TrimSuffix filename (fileExtOf filename).

(** Line 49: [fmt.Sprintf("%s_%d%s", ...)]. *)
Definition originalFileNameOf (fileNameWithoutExt : string)
    (timestamp : Z) (fileExt : string) : string :=
  fileNameWithoutExt +:+ "_" +:+ Go.fmt_d timestamp +:+ fileExt.

(** Lines 90-91: [fmt.Sprintf("%s_%dx%d_%d%s", ...)]. *)
Definition compressedFileNameOf (fileNameWithoutExt : string)
    (spec : CompressSpec) (timestamp : Z) (fileExt : string) : string :=
  fileNameWithoutExt +:+ "_" +:+ Go.fmt_d (Width spec) +:+ "x"
    +:+ Go.fmt_d (Height spec) +:+ "_" +:+ Go.fmt_d timestamp
    +:+ fileExt.

(** Line 72.  The call is modelled where it returns an image: the
    library has no error result, and a call that panics (a side that is
    negative as an [int], or too large to allocate) ends the process and
    is no run of this model.  Statements about what a request returns
    are therefore about a request that does return. *)
Definition resizedOf (img : Image) (spec : CompressSpec) : Image :=
  resize_Resize (Go.uint (Width spec)) (Go.uint (Height spec)) img.

(** Lines 78-82. *)
Definition encodeOf (format : string) (resizedImg : Image)
  : result (list Byte.byte) :=
  if bool_decide (format = "jpeg") then jpeg_Encode resizedImg 85
  else png_Encode resizedImg.

(** Lines 70-106: the loop over [compressSizes]; [continue] is the
    recursive call on the remaining specs with [response] untouched. *)
Fixpoint processSpecs (img : Image) (format : string)
    (fileNameWithoutExt : string) (timestamp : Z) (fileExt : string)
    (compressSizes : list CompressSpec) (response : UploadResponse)
  : M UploadResponse :=
  match compressSizes with
  | [] => mret response
  | spec :: rest =>
      emit (CallResize (Go.uint (Width spec)) (Go.uint (Height spec)));;
      let resizedImg := resizedOf img spec in
      emit (CallEncode format);;
      match encodeOf format resizedImg with
      | Err encodeErr =>
          emit (LogPrintf ("Failed to encode compressed image: "
                             +:+ Error encodeErr));;
          processSpecs img format fileNameWithoutExt timestamp fileExt
            rest response
      | Ok buf =>
          let compressedFileName :=
            compressedFileNameOf fileNameWithoutExt spec timestamp
              fileExt in
          r ← UploadFile buf compressedFileName (getContentType format);
          match r with
          | Err uploadErr =>
              emit (LogPrintf ("Failed to upload compressed image: "
                                 +:+ Error uploadErr));;
              processSpecs img format fileNameWithoutExt timestamp
                fileExt rest response
          | Ok compressedURL =>
              processSpecs img format fileNameWithoutExt timestamp
                fileExt rest
                (mkUploadResponse (OriginalImage response)
                   (append (CompressedImages response)
                      (mkImageResult (Width spec) (Height spec)
                         compressedURL))
                   (Message response))
          end
      end
  end.

Definition ProcessAndUploadImage (fileBytes : list Byte.byte)
    (filename : string) (compressSizes : list CompressSpec)
  : M (result UploadResponse) :=
  match decodeImage fileBytes with
  | Err err => mret (Err (Errorf_w "failed to decode image: " err))
  | Ok (img, format) =>
      timestamp ← time_Now_UnixNano;
      let fileExt := fileExtOf filename in
      let fileNameWithoutExt := fileNameWithoutExtOf filename in
      let originalFileName :=
        originalFileNameOf fileNameWithoutExt timestamp fileExt in
      r ← UploadFile fileBytes originalFileName (getContentType format);
      match r with
      | Err err =>
          mret (Err (Errorf_w "failed to upload original image: " err))
      | Ok originalURL =>
          let originalBounds := Bounds img in
          let response :=
            mkUploadResponse
              (mkImageResult (Dx originalBounds) (Dy originalBounds)
                 originalURL)
              (slice_of [])
              "Image uploaded and processed successfully" in
          response' ← processSpecs img format fileNameWithoutExt
                        timestamp fileExt compressSizes response;
          mret (Ok response')
      end
  end.

End Service.

(** The scanned value of [fmt.Sscanf(s, "%d", &n)] with [n := 0] before
    the call: a failed scan leaves [n] at zero and the returned error is
    dropped by the caller. *)
Definition scanInto (s : string) : Z := default 0 (Go.Sscanf_d s).

(** Lines 124-148 of [GetImageInfo]: the dimensions read off a name of
    the shape [name_WxH_timestamp.ext]. *)
Definition filenameDimensions (filename : string) : Z * Z :=
  let parts := Go.Split filename "_" in
  if bool_decide (2 ≤ length parts)%nat then
    let dimParts := Go.Split (nth (length parts - 2) parts "") "x" in
    if bool_decide (length dimParts = 2%nat) then
      let width := scanInto (nth 0 dimParts "") in
      let height := scanInto (nth 1 dimParts "") in
      if bool_decide (width > 0) && bool_decide (height > 0)
      then (width, height)
      else (0, 0)
    else (0, 0)
  else (0, 0).

Definition GetImageInfo (filename : string) : M (result ImageResult) :=
  r ← GetFile filename;
  match r with
  | Ok true =>
      let imageURL := "https://s3-url/" +:+ filename in
      let '(width, height) := filenameDimensions filename in
      mret (Ok (mkImageResult width height imageURL))
  | _ => mret (Err (errors_New "image not found"))
  end.

(** ** A small imaging instance to run the service on

    A raster is its bounds and the tag it was decoded from.  The byte
    format is one tag byte ([0xFF] for jpeg, [0x89] for png) followed by
    the width and the height, one byte each.  [Resize] follows the
    documented behaviour of [nfnt/resize]: a zero target dimension is
    derived from the other one by the aspect ratio of the source, both
    zero gives the source size, and a source without pixels or already of
    the target size is returned as it is. *)
Module Toy.

Record raster := mkRaster { rect : Rectangle; tag : string }.

Definition sized (w h : Z) : Rectangle :=
  mkRectangle (mkPoint 0 0) (mkPoint w h).

Definition byteZ (b : Byte.byte) : Z := Z.of_N (Byte.to_N b).

Definition Zbyte (n : Z) : Byte.byte :=
  default Byte.x00 (Byte.of_N (Z.to_N (n mod 256))).

Definition Decode (bs : list Byte.byte) : result (raster * string) :=
  match bs with
  | Byte.xff :: w :: h :: _ =>
      Ok (mkRaster (sized (byteZ w) (byteZ h)) "jpeg", "jpeg")
  | Byte.x89 :: w :: h :: _ =>
      Ok (mkRaster (sized (byteZ w) (byteZ h)) "png", "png")
  | _ => Err (errors_New "image: unknown format")
  end.

Definition Resize (width height : Z) (img : raster) : raster :=
  let dx := Dx (rect img) in
  let dy := Dy (rect img) in
  let width' :=
    if bool_decide (width = 0)
    then (if bool_decide (height = 0) then dx
          else (7 * dy + 10 * dx * height) / (10 * dy))
    else width in
  let height' :=
    if bool_decide (height = 0)
    then (if bool_decide (width = 0) then dy
          else (7 * dx + 10 * dy * width) / (10 * dx))
    else height in
  if bool_decide (width' = dx ∧ height' = dy) then img
  else if bool_decide (dx ≤ 0 ∨ dy ≤ 0) then img
  else mkRaster (sized width' height') (tag img).

Definition Encode (first : Byte.byte) (img : raster)
  : result (list Byte.byte) :=
  if bool_decide (0 < Dx (rect img) < 256 ∧ 0 < Dy (rect img) < 256)
  then Ok [first; Zbyte (Dx (rect img)); Zbyte (Dy (rect img))]
  else Err (errors_New "encode: invalid image size").

Global Instance imaging : Imaging := {|
  Image := raster;
  Bounds := rect;
  image_Decode := Decode;
  resize_Resize := Resize;
  jpeg_Encode := λ img _, Encode Byte.xff img;
  png_Encode := Encode Byte.x89;
  unicode_ToLower := λ s, s
|}.

(** A 200x100 JPEG, a world with an empty bucket and no faults. *)
Definition photo : list Byte.byte := [Byte.xff; Byte.xc8; Byte.x64].

Definition config : S3Config := mkS3Config "" "bucket" "eu-west-1".

Definition world (fs : list (option error)) : World :=
  mkWorld ∅ fs config 1234567890 [].

End Toy.

(** ** Reading a run *)

(** The error, if any, of the [n]-th SDK call from now (the next call
    is number 0). *)
Definition fault_at (w : World) (n : nat) : option error :=
  mjoin (faults w !! n).

(** The world after [n] SDK calls that left the bucket as [objs] and
    added [evs] to the trace. *)
Definition after_calls (w : World) (objs : gmap string Object)
    (evs : list Event) (n : nat) : World :=
  mkWorld objs (drop n (faults w)) (cfg w) (clock w) (trace w ++ evs).

Definition isDecodeFailed (e : error) : Prop :=
  ∃ cause, e = Errorf_w "failed to decode image: " cause.

Definition isOriginalUploadFailed (e : error) : Prop :=
  ∃ cause, e = Errorf_w "failed to upload original image: " cause.

Section Run.
Context `{Imaging}.
Variables (img : Image) (format : string).
Variables (fileNameWithoutExt : string) (timestamp : Z) (fileExt : string).

Definition keyOf (spec : CompressSpec) : string :=
  compressedFileNameOf fileNameWithoutExt spec timestamp fileExt.

(** The three calls one spec makes when its encoding succeeds. *)
Definition attempt (spec : CompressSpec) : list Event :=
  [CallResize (Go.uint (Width spec)) (Go.uint (Height spec));
   CallEncode format;
   CallPut (keyOf spec) (getContentType format)].

(** The entry a stored variant gets in the response. *)
Definition variantOf (c : S3Config) (spec : CompressSpec) : ImageResult :=
  mkImageResult (Width spec) (Height spec) (fileURL c (keyOf spec)).

(** The bucket after the encoded variant of [spec] was put. *)
Definition withVariant (m : gmap string Object) (spec : CompressSpec)
  : gmap string Object :=
  match encodeOf format (resizedOf img spec) with
  | Ok buf => <[keyOf spec := mkObject buf (getContentType format)]> m
  | Err _ => m
  end.

Definition encodes (spec : CompressSpec) : Prop :=
  is_ok (encodeOf format (resizedOf img spec)) = true.

End Run.

(** ** One request *)

Section Request.
Context `{Imaging}.
Variables (filename : string) (w : World).

(** The key of the original and of a variant in the request that
    starts in world [w]. *)
Definition originalKey : string :=
  originalFileNameOf (fileNameWithoutExtOf filename) (clock w)
    (fileExtOf filename).

Definition variantKey (spec : CompressSpec) : string :=
  keyOf (fileNameWithoutExtOf filename) (clock w) (fileExtOf filename)
    spec.

Definition variantEntry (spec : CompressSpec) : ImageResult :=
  variantOf (fileNameWithoutExtOf filename) (clock w)
    (fileExtOf filename) (cfg w) spec.

Definition variantCalls (format : string) (spec : CompressSpec)
  : list Event :=
  attempt format (fileNameWithoutExtOf filename) (clock w)
    (fileExtOf filename) spec.

Definition putVariant (img : Image) (format : string)
    (m : gmap string Object) (spec : CompressSpec) : gmap string Object :=
  withVariant img format (fileNameWithoutExtOf filename) (clock w)
    (fileExtOf filename) m spec.

(** The response once the original is stored (lines 58-67). *)
Definition initialResponse (img : Image) : UploadResponse :=
  mkUploadResponse
    (mkImageResult (Dx (Bounds img)) (Dy (Bounds img))
       (fileURL (cfg w) originalKey))
    (slice_of [])
    "Image uploaded and processed successfully".

End Request.

(** ** Bytes of a string *)

Fixpoint all_bytes (P : ascii → bool) (s : string) : bool :=
  match s with
  | "" => true
  | String c s' => P c && all_bytes P s'
  end.

(** [c] does not occur in [s]. *)
Definition without (c : ascii) (s : string) : bool :=
  all_bytes (λ b, negb (bool_decide (b = c))) s.

(** The bytes [%d] can print: the digits and the minus sign. *)
Definition isNumeric (c : ascii) : bool :=
  Go.isDigit c || bool_decide (c = "-"%char).

(** The keys of the puts recorded in a trace. *)
Fixpoint putKeys (t : list Event) : list string :=
  match t with
  | [] => []
  | CallPut key _ :: t' => key :: putKeys t'
  | _ :: t' => putKeys t'
  end.

(** An entry that carries the width and height of one of the specs. *)
Definition requested (specs : list CompressSpec) (r : ImageResult) : Prop :=
  ∃ spec, spec ∈ specs ∧ irWidth r = Width spec ∧ irHeight r = Height spec.

(** ** Names read back by [GetImageInfo] *)

(** [parts] are the pieces of [s] between the occurrences of [sep]. *)
Definition segments (sep : ascii) (s : string) (parts : list string) : Prop :=
  parts ≠ []
  ∧ Forall (λ p, without sep p = true) parts
  ∧ String.concat (String sep "") parts = s.

(** [seg] is the second-to-last underscore-separated segment. *)
Definition secondToLast (filename seg : string) : Prop :=
  ∃ front last, segments "_" filename (front ++ [seg; last]).

(** [seg] is two pieces around one [x] that [%d] scans to [W] and [H]. *)
Definition scansAsWxH (seg : string) (W H : Z) : Prop :=
  ∃ a b, segments "x" seg [a; b]
         ∧ Go.Sscanf_d a = Some W ∧ Go.Sscanf_d b = Some H.

(** [s] is the decimal numeral of [n]: digits only, at least one. *)
Definition decimal (s : string) (n : Z) : Prop :=
  s ≠ "" ∧ all_bytes Go.isDigit s = true ∧ Go.parseDigits 0 s = Some n.

(** [seg] is written [<W>x<H>], two decimal numerals around an [x]. *)
Definition writtenAsWxH (seg : string) (W H : Z) : Prop :=
  ∃ a b, seg = a +:+ "x" +:+ b ∧ decimal a W ∧ decimal b H.

(** The dimensions of a name as the specification words them: those of
    a second-to-last segment written [<W>x<H>] with both positive, and
    zero for every other name. *)
Definition dimensions_as_stated (filename : string) : Prop :=
  (∀ seg W H,
     secondToLast filename seg → writtenAsWxH seg W H → W > 0 → H > 0 →
     filenameDimensions filename = (W, H))
  ∧ ((¬ ∃ seg W H,
        secondToLast filename seg ∧ writtenAsWxH seg W H ∧ W > 0 ∧ H > 0) →
     filenameDimensions filename = (0, 0)).

(** ** Listing the bucket *)

(** The page size of the store when the request sets no [MaxKeys]. *)
Definition maxKeys : nat := 1000.

(** The keys of a bucket in the byte order the store lists them in. *)
Definition listedKeys (m : gmap string Object) : list string :=
  merge_sort String.le (map_to_list m).*1.

Definition read_objects : M (gmap string Object) := λ w, (objects w, w).

(** [s3.Client.ListObjectsV2] as [ListFiles] calls it, with the bucket
    name only: one page, the first [maxKeys] keys; the call carries no
    continuation token and the caller never asks for a second page. *)
Definition ListObjectsV2 : M (result (list string)) :=
  f ← next_fault;
  match f with
  | Some err => mret (Err err)
  | None => m ← read_objects; mret (Ok (take maxKeys (listedKeys m)))
  end.

(** [S3Repository.ListFiles]: [filenames] starts as the nil slice and
    grows by one [append] for each listed object. *)
Definition ListFiles : M (result (slice string)) :=
  r ← ListObjectsV2;
  match r with
  | Err err => mret (Err err)
  | Ok contents => mret (Ok (foldl append nil_slice contents))
  end.

(** [ImageService.ListImages]. *)
Definition ListImages : M (result (slice string)) := ListFiles.

(** ** [internal/handlers] *)

Definition StatusOK : Z := 200.
Definition StatusBadRequest : Z := 400.
Definition StatusNotFound : Z := 404.
Definition StatusInternalServerError : Z := 500.

(** What a handler hands to [json.Marshal]. *)
Inductive Payload : Type :=
  | ErrorResponse (message : string)
  | UploadPayload (response : UploadResponse)
  | ImagePayload (info : ImageResult)
  | ListPayload (images : slice string)
  | HealthPayload.

(** What [respondWithJSON] writes: the status code and the payload. *)
Record Response := mkResponse { code : Z; payload : Payload }.

Definition respondWithJSON (code : Z) (p : Payload) : Response :=
  mkResponse code p.

Definition respondWithError (code : Z) (message : string) : Response :=
  respondWithJSON code (ErrorResponse message).

(** What [net/http] gives the upload handler: the outcome of
    [r.ParseMultipartForm], of [r.FormFile("image")] (the file name of
    the part and what [io.ReadAll] will read from it), and the form
    value [compress_sizes]. *)
Record UploadForm := mkUploadForm
  { ParseMultipartForm : option error;
    FormFile : result (string * result (list Byte.byte));
    compress_sizes : string }.

Section Handlers.
Context `{Imaging}.

(** [json.Unmarshal] into a [[]models.CompressSpec]. *)
Variable json_Unmarshal : string → result (list CompressSpec).

(** [ImageHandler.Upload]. *)
Definition Upload (r : UploadForm) : M Response :=
  match ParseMultipartForm r with
  | Some err =>
      mret (respondWithError StatusBadRequest
              ("Failed to parse form: " +:+ Error err))
  | None =>
      match FormFile r with
      | Err err =>
          mret (respondWithError StatusBadRequest
                  ("Failed to get image file: " +:+ Error err))
      | Ok (Filename, file) =>
          let fileExt := Go.ToLower unicode_ToLower (Go.Ext Filename) in
          if bool_decide (fileExt ≠ ".jpg") && bool_decide (fileExt ≠ ".jpeg")
             && bool_decide (fileExt ≠ ".png")
          then mret (respondWithError StatusBadRequest
                  "Unsupported file type. Only JPG and PNG are supported")
          else
            let compressSizesStr := compress_sizes r in
            if bool_decide (compressSizesStr = "")
            then mret (respondWithError StatusBadRequest
                         "Missing compress_sizes parameter")
            else
              match json_Unmarshal compressSizesStr with
              | Err err =>
                  mret (respondWithError StatusBadRequest
                          ("Invalid compress_sizes format: " +:+ Error err))
              | Ok compressSizes =>
                  match file with
                  | Err err =>
                      mret (respondWithError StatusInternalServerError
                              ("Failed to read file: " +:+ Error err))
                  | Ok fileBytes =>
                      res ← ProcessAndUploadImage fileBytes Filename
                              compressSizes;
                      match res with
                      | Err err =>
                          mret (respondWithError StatusInternalServerError
                                  (Error err))
                      | Ok response =>
                          mret (respondWithJSON StatusOK
                                  (UploadPayload response))
                      end
                  end
              end
      end
  end.

End Handlers.

(** [ImageHandler.GetImage], on the [filename] variable of the route. *)
Definition GetImage (filename : string) : M Response :=
  res ← GetImageInfo filename;
  match res with
  | Err _ => mret (respondWithError StatusNotFound "Image not found")
  | Ok imageInfo => mret (respondWithJSON StatusOK (ImagePayload imageInfo))
  end.


(** ** Reading a trace *)

(** The targets of the resize calls recorded in a trace. *)
Fixpoint resizeCalls (t : list Event) : list (Z * Z) :=
  match t with
  | [] => []
  | CallResize width height :: t' => (width, height) :: resizeCalls t'
  | _ :: t' => resizeCalls t'
  end.

(** The target a spec is resized to (line 72). *)
Definition resizeTarget (spec : CompressSpec) : Z * Z :=
  (Go.uint (Width spec), Go.uint (Height spec)).

(** ** A sample request

    Four specs on the 200x100 photo: the second cannot be encoded by the
    toy encoder (too large), the put of the third fails. *)
Module Sample.

Definition specs : list CompressSpec :=
  [mkCompressSpec 80 60; mkCompressSpec 7 900; mkCompressSpec 40 30;
   mkCompressSpec 20 10].

Definition start : World :=
  Toy.world [None; None; Some (errors_New "slow down")].

Definition response : UploadResponse :=
  mkUploadResponse
    (mkImageResult 200 100
       "https://bucket.s3.eu-west-1.amazonaws.com/photo_1234567890.jpg")
    (slice_of
       [mkImageResult 80 60
          "https://bucket.s3.eu-west-1.amazonaws.com/photo_80x60_1234567890.jpg";
        mkImageResult 20 10
          "https://bucket.s3.eu-west-1.amazonaws.com/photo_20x10_1234567890.jpg"])
    "Image uploaded and processed successfully".

Definition finish : World :=
  snd (ProcessAndUploadImage Toy.photo "photo.jpg" specs start).

(** A bucket that already holds an object, with no faults to come. *)
Definition busy : World :=
  mkWorld (<["cat.png" := mkObject [Byte.x89] "image/png"]> ∅) []
    Toy.config 5 [].

End Sample.

(** * Properties *)

(** ** Sanity checks of the library functions *)

Example ext_photo : Go.Ext "dir.d/photo.JPG" = ".JPG".
Proof. reflexivity. Qed.

Example ext_none : Go.Ext "dir.d/photo" = "".
Proof. reflexivity. Qed.

Example trim_photo : Go.TrimSuffix "photo.jpg" ".jpg" = "photo".
Proof. reflexivity. Qed.

Example split_key :
  Go.Split "photo_800x600_12.jpg" "_" = ["photo"; "800x600"; "12.jpg"].
Proof. reflexivity. Qed.

Example scan_plain : Go.Sscanf_d "800" = Some 800.
Proof. reflexivity. Qed.

Example scan_lenient : Go.Sscanf_d " +12ab" = Some 12.
Proof. reflexivity. Qed.

Example scan_overflow : Go.Sscanf_d "9223372036854775808" = None.
Proof. reflexivity. Qed.

Example scan_min : Go.Sscanf_d "-9223372036854775808" = Some (- 2 ^ 63).
Proof. reflexivity. Qed.

Example scan_empty : Go.Sscanf_d "" = None.
Proof. reflexivity. Qed.

Example fmt_d_neg : Go.fmt_d (-1234567890) = "-1234567890".
Proof. vm_compute. reflexivity. Qed.

(** C8: the content type is ["image/jpeg"] for the tag ["jpeg"],
    ["image/png"] for ["png"], and ["application/octet-stream"] for
    every other tag. *)
Theorem getContentType_table :
  getContentType "jpeg" = "image/jpeg"
  ∧ getContentType "png" = "image/png"
  ∧ ∀ format : string,
      format ≠ "jpeg" → format ≠ "png" →
      getContentType format = "application/octet-stream".
Proof.
  split; [reflexivity|]. split; [reflexivity|].
  intros format Hj Hp. unfold getContentType.
  rewrite !bool_decide_eq_false_2 by assumption. reflexivity.
Qed.

Lemma getContentType_table_witness :
  getContentType "gif" = "application/octet-stream".
Proof.
  apply (proj2 (proj2 getContentType_table) "gif"); discriminate.
Defined.

Example dims_variant :
  filenameDimensions "photo_800x600_1234567890.jpg" = (800, 600).
Proof. reflexivity. Qed.

Example dims_original : filenameDimensions "photo_1234567890.jpg" = (0, 0).
Proof. reflexivity. Qed.

(** ** Byte strings *)

Lemma str_app_cons c s t : String c s +:+ t = String c (s +:+ t).
Proof. reflexivity. Qed.

Lemma str_app_nil_l s : "" +:+ s = s.
Proof. reflexivity. Qed.

Lemma str_app_nil_r s : s +:+ "" = s.
Proof. induction s as [|c s IH]; [done|]. by rewrite str_app_cons, IH. Qed.

Lemma str_app_assoc s t u : (s +:+ t) +:+ u = s +:+ t +:+ u.
Proof.
  induction s as [|c s IH]; [done|]. by rewrite !str_app_cons, IH.
Qed.

Lemma str_length_app s t :
  String.length (s +:+ t) = (String.length s + String.length t)%nat.
Proof.
  induction s as [|c s IH]; [done|]. rewrite str_app_cons. simpl.
  by rewrite IH.
Qed.

Lemma slice_to_from n : ∀ s, Go.slice_to n s +:+ Go.slice_from n s = s.
Proof.
  induction n as [|n IH]; intros [|c s]; try reflexivity.
  simpl. by rewrite str_app_cons, IH.
Qed.

Lemma slice_from_app a b : Go.slice_from (String.length a) (a +:+ b) = b.
Proof. induction a as [|c a IH]; [by destruct b|]. exact IH. Qed.

Lemma slice_to_app a b : Go.slice_to (String.length a) (a +:+ b) = a.
Proof.
  induction a as [|c a IH]; [by destruct b|].
  rewrite str_app_cons. simpl. by rewrite IH.
Qed.

Lemma Ext_loop_suffix path n : ∃ base, path = base +:+ Go.Ext_loop path n.
Proof.
  induction n as [|i IH]; simpl.
  - exists path. by rewrite str_app_nil_r.
  - destruct (String.get i path) as [c|].
    + destruct (Go.IsPathSeparator c).
      * exists path. by rewrite str_app_nil_r.
      * destruct (bool_decide (c = "."%char)); [|exact IH].
        exists (Go.slice_to i path). by rewrite slice_to_from.
    + exists path. by rewrite str_app_nil_r.
Qed.

(** The extension is a suffix of the path. *)
Lemma Ext_suffix path : ∃ base, path = base +:+ Go.Ext path.
Proof. apply Ext_loop_suffix. Qed.

Lemma TrimSuffix_app base suffix :
  Go.TrimSuffix (base +:+ suffix) suffix = base.
Proof.
  unfold Go.TrimSuffix, Go.HasSuffix.
  rewrite str_length_app.
  replace (String.length base + String.length suffix - String.length suffix)%nat
    with (String.length base) by lia.
  rewrite slice_from_app, slice_to_app.
  rewrite bool_decide_eq_true_2 by lia.
  rewrite bool_decide_eq_true_2 by done. reflexivity.
Qed.

(** When the suffix is absent the string is returned whole. *)
Lemma TrimSuffix_absent s suffix :
  Go.HasSuffix s suffix = false → Go.TrimSuffix s suffix = s.
Proof. unfold Go.TrimSuffix. by intros ->. Qed.

(** ** The monad and the store *)

Ltac run_unfold :=
  unfold UploadFile, GetFile, PutObject, HeadObject, emit, next_fault,
    store, lookup_object, read_cfg, time_Now_UnixNano, after_calls,
    fault_at, mbind, M_bind, mret, M_ret in *.

Lemma fault_at_after_calls w objs evs n i :
  fault_at (after_calls w objs evs n) i = fault_at w (n + i).
Proof. unfold fault_at, after_calls. simpl. by rewrite lookup_drop. Qed.

Lemma after_calls_id w : after_calls w (objects w) [] 0 = w.
Proof. destruct w. unfold after_calls. simpl. by rewrite app_nil_r. Qed.

Lemma after_calls_twice w o1 e1 n1 o2 e2 n2 :
  after_calls (after_calls w o1 e1 n1) o2 e2 n2
  = after_calls w o2 (e1 ++ e2) (n1 + n2).
Proof.
  unfold after_calls. simpl.
  by rewrite drop_drop, <- app_assoc.
Qed.

Lemma UploadFile_ok fileBytes fileName contentType w :
  fault_at w 0 = None →
  UploadFile fileBytes fileName contentType w
  = (Ok (fileURL (cfg w) fileName),
     after_calls w (<[fileName := mkObject fileBytes contentType]> (objects w))
       [CallPut fileName contentType] 1).
Proof.
  run_unfold. destruct w as [objs [|[e|] fs] c t tr]; simpl;
    intros; simplify_eq; reflexivity.
Qed.

Lemma UploadFile_err fileBytes fileName contentType w e :
  fault_at w 0 = Some e →
  UploadFile fileBytes fileName contentType w
  = (Err e, after_calls w (objects w) [CallPut fileName contentType] 1).
Proof.
  run_unfold. destruct w as [objs [|[e'|] fs] c t tr]; simpl;
    intros; simplify_eq; reflexivity.
Qed.

(** ** The loop over the specs *)

Section Loop.
Context `{Imaging}.
Variables (img : Image) (format : string).
Variables (base : string) (ts : Z) (ext : string).

Local Abbreviation loop := (processSpecs img format base ts ext).
Local Abbreviation key := (keyOf base ts ext).
Local Abbreviation tried := (attempt format base ts ext).

(** One turn of the loop, with the binds run. *)
Lemma processSpecs_cons spec rest resp w :
  loop (spec :: rest) resp w
  = let w1 :=
      after_calls w (objects w)
        [CallResize (Go.uint (Width spec)) (Go.uint (Height spec));
         CallEncode format] 0 in
    match encodeOf format (resizedOf img spec) with
    | Err e =>
        loop rest resp
          (after_calls w1 (objects w1)
             [LogPrintf ("Failed to encode compressed image: "
                           +:+ Error e)] 0)
    | Ok buf =>
        match UploadFile buf (key spec) (getContentType format) w1 with
        | (Ok url, w2) =>
            loop rest
              (mkUploadResponse (OriginalImage resp)
                 (append (CompressedImages resp)
                    (mkImageResult (Width spec) (Height spec) url))
                 (Message resp)) w2
        | (Err e, w2) =>
            loop rest resp
              (after_calls w2 (objects w2)
                 [LogPrintf ("Failed to upload compressed image: "
                               +:+ Error e)] 0)
        end
    end.
Proof.
  simpl. unfold mbind, M_bind, emit, after_calls, keyOf. simpl.
  rewrite <- !app_assoc. simpl.
  destruct (encodeOf format (resizedOf img spec)) as [buf|e];
    [|reflexivity].
  destruct (UploadFile buf _ _ _) as [[url|e] w2]; reflexivity.
Qed.

Lemma processSpecs_stored spec rest o l m w :
  encodes img format spec →
  fault_at w 0 = None →
  loop (spec :: rest) (mkUploadResponse o (slice_of l) m) w
  = loop rest
      (mkUploadResponse o
         (slice_of (l ++ [variantOf base ts ext (cfg w) spec])) m)
      (after_calls w (withVariant img format base ts ext (objects w) spec)
         (tried spec) 1).
Proof.
  unfold encodes, withVariant. intros Henc Hput. simpl.
  destruct (encodeOf format (resizedOf img spec)) as [buf|] eqn:E;
    [clear Henc|discriminate].
  unfold mbind at 1 2, M_bind, emit. simpl.
  unfold mbind at 1, M_bind.
  rewrite UploadFile_ok by exact Hput.
  unfold after_calls. simpl. rewrite <- !app_assoc. reflexivity.
Qed.

Lemma processSpecs_put_failed spec rest resp w e :
  encodes img format spec →
  fault_at w 0 = Some e →
  loop (spec :: rest) resp w
  = loop rest resp
      (after_calls w (objects w)
         (tried spec
          ++ [LogPrintf ("Failed to upload compressed image: "
                           +:+ Error e)]) 1).
Proof.
  unfold encodes. intros Henc Hput. simpl.
  destruct (encodeOf format (resizedOf img spec)) as [buf|] eqn:E;
    [clear Henc|discriminate].
  unfold mbind at 1 2, M_bind, emit. simpl.
  unfold mbind at 1, M_bind.
  rewrite UploadFile_err with (e := e) by exact Hput.
  unfold mbind at 1, M_bind, emit, after_calls. simpl.
  rewrite <- !app_assoc. reflexivity.
Qed.

Lemma processSpecs_encode_failed spec rest resp w e :
  encodeOf format (resizedOf img spec) = Err e →
  loop (spec :: rest) resp w
  = loop rest resp
      (after_calls w (objects w)
         [CallResize (Go.uint (Width spec)) (Go.uint (Height spec));
          CallEncode format;
          LogPrintf ("Failed to encode compressed image: " +:+ Error e)]
         0).
Proof.
  intros E. simpl. rewrite E.
  unfold mbind at 1 2 3, M_bind, emit, after_calls. simpl.
  rewrite <- !app_assoc. reflexivity.
Qed.

(** A stretch of specs that all encode and whose puts all go through. *)
Lemma processSpecs_clean specs : ∀ o l m w,
  Forall (encodes img format) specs →
  (∀ i, (i < length specs)%nat → fault_at w i = None) →
  loop specs (mkUploadResponse o (slice_of l) m) w
  = (mkUploadResponse o
       (slice_of (l ++ map (variantOf base ts ext (cfg w)) specs)) m,
     after_calls w
       (foldl (withVariant img format base ts ext) (objects w) specs)
       (concat (map tried specs)) (length specs)).
Proof.
  induction specs as [|spec rest IH]; intros o l m w Henc Hput.
  - simpl. rewrite app_nil_r, after_calls_id. reflexivity.
  - apply Forall_cons in Henc as [Hs Hrest].
    rewrite processSpecs_stored by (auto; apply Hput; simpl; lia).
    rewrite IH; [|exact Hrest|].
    + rewrite after_calls_twice. simpl. rewrite <- app_assoc.
      reflexivity.
    + intros i Hi. rewrite fault_at_after_calls. apply Hput. simpl. lia.
Qed.

Lemma processSpecs_app specs1 : ∀ specs2 resp w,
  loop (specs1 ++ specs2) resp w
  = let '(resp1, w1) := loop specs1 resp w in loop specs2 resp1 w1.
Proof.
  induction specs1 as [|spec rest IH]; intros specs2 resp w;
    [reflexivity|].
  rewrite <- app_comm_cons, !processSpecs_cons. cbv zeta.
  destruct (encodeOf format (resizedOf img spec)) as [buf|e];
    [|apply IH].
  destruct (UploadFile buf _ _ _) as [[url|e] w2]; apply IH.
Qed.

(** The loop never touches the original's entry nor the message. *)
Lemma processSpecs_keeps_original specs : ∀ resp w,
  OriginalImage (fst (loop specs resp w)) = OriginalImage resp
  ∧ Message (fst (loop specs resp w)) = Message resp.
Proof.
  induction specs as [|spec rest IH]; intros resp w; [done|].
  rewrite processSpecs_cons. cbv zeta.
  destruct (encodeOf format (resizedOf img spec)) as [buf|e];
    [|apply IH].
  destruct (UploadFile buf _ _ _) as [[url|e] w2]; [|apply IH].
  destruct (IH (mkUploadResponse (OriginalImage resp)
              (append (CompressedImages resp)
                 (mkImageResult (Width spec) (Height spec) url))
              (Message resp)) w2) as [-> ->]. done.
Qed.

End Loop.

(** ** Storage keys *)

Lemma all_bytes_app P s t :
  all_bytes P (s +:+ t) = all_bytes P s && all_bytes P t.
Proof.
  induction s as [|c s IH]; [done|].
  rewrite str_app_cons. simpl. by rewrite IH, andb_assoc.
Qed.

Lemma all_bytes_impl (P Q : ascii → bool) s :
  (∀ c, P c = true → Q c = true) →
  all_bytes P s = true → all_bytes Q s = true.
Proof.
  intros HPQ. induction s as [|c s IH]; [done|]. simpl.
  intros [Hc Hs]%andb_true_iff. by rewrite (HPQ c Hc), IH.
Qed.

Lemma pretty_N_char_digit n : Go.isDigit (pretty_N_char n) = true.
Proof. unfold pretty_N_char. by repeat case_match. Qed.

Lemma pretty_N_go_digits x : ∀ s,
  all_bytes Go.isDigit s = true →
  all_bytes Go.isDigit (pretty_N_go x s) = true.
Proof.
  induction (N.lt_wf_0 x) as [x _ IH]. intros s Hs.
  destruct (decide (x = 0)%N) as [->|Hx]; [by rewrite pretty_N_go_0|].
  rewrite pretty_N_go_step by lia. apply IH.
  - apply N.div_lt; lia.
  - simpl. by rewrite pretty_N_char_digit, Hs.
Qed.

Lemma pretty_N_digits (x : N) : all_bytes Go.isDigit (pretty x) = true.
Proof.
  unfold pretty, pretty_N. destruct (decide (x = 0)%N); [done|].
  by apply pretty_N_go_digits.
Qed.

(** [%d] prints digits and at most a minus sign. *)
Lemma fmt_d_numeric n : all_bytes isNumeric (Go.fmt_d n) = true.
Proof.
  assert (∀ x : N, all_bytes isNumeric (pretty x) = true) as HN.
  { intros x. apply all_bytes_impl with (P := Go.isDigit);
      [|apply pretty_N_digits].
    intros c Hc. unfold isNumeric. by rewrite Hc. }
  destruct n as [|p|p].
  - reflexivity.
  - change (Go.fmt_d (Z.pos p)) with (pretty (N.pos p)). apply HN.
  - change (Go.fmt_d (Z.neg p)) with ("-" +:+ pretty (N.pos p)).
    rewrite all_bytes_app, HN. reflexivity.
Qed.

Lemma fmt_d_without c n :
  isNumeric c = false → without c (Go.fmt_d n) = true.
Proof.
  intros Hc. apply all_bytes_impl with (P := isNumeric);
    [|apply fmt_d_numeric].
  intros b Hb. apply negb_true_iff, bool_decide_eq_false. congruence.
Qed.

(** A string is cut in one way only at the first occurrence of a byte. *)
Lemma cut_unique c a1 : ∀ a2 r1 r2,
  without c a1 = true → without c a2 = true →
  a1 +:+ String c r1 = a2 +:+ String c r2 → a1 = a2 ∧ r1 = r2.
Proof.
  unfold without.
  induction a1 as [|b1 a1 IH]; intros [|b2 a2] r1 r2 H1 H2 Heq;
    rewrite ?str_app_cons, ?str_app_nil_l in Heq; simpl in *.
  - by simplify_eq.
  - simplify_eq. apply andb_true_iff in H2 as [H2 _].
    apply negb_true_iff, bool_decide_eq_false in H2. done.
  - simplify_eq. apply andb_true_iff in H1 as [H1 _].
    apply negb_true_iff, bool_decide_eq_false in H1. done.
  - apply andb_true_iff in H1 as [_ H1].
    apply andb_true_iff in H2 as [_ H2].
    injection Heq as -> Heq.
    destruct (IH a2 r1 r2 H1 H2 Heq) as [-> ->]. done.
Qed.

Section Keys.
Context `{Imaging}.

(** Within one request two variant keys are equal exactly when the
    two specs are. *)
Lemma compressedFileNameOf_inj base ts ext spec1 spec2 :
  compressedFileNameOf base spec1 ts ext
  = compressedFileNameOf base spec2 ts ext →
  spec1 = spec2.
Proof.
  destruct spec1 as [w1 h1], spec2 as [w2 h2].
  unfold compressedFileNameOf. simpl.
  intros Heq%(inj (String.app base)).
  change ("_" +:+ ?s) with (String "_" s) in Heq.
  change ("x" +:+ ?s) with (String "x" s) in Heq.
  injection Heq as Heq.
  apply cut_unique in Heq as [Hw Heq];
    [|by apply fmt_d_without..].
  apply cut_unique in Heq as [Hh _];
    [|by apply fmt_d_without..].
  apply (inj pretty) in Hw, Hh. by subst.
Qed.

(** The keys of a name whose extension has no upper-case letter. *)
Lemma keys_of_lowercase_extension filename ts spec :
  fileExtOf filename = Go.Ext filename →
  ∃ basename,
    filename = basename +:+ Go.Ext filename
    ∧ originalFileNameOf (fileNameWithoutExtOf filename) ts
        (fileExtOf filename)
      = basename +:+ "_" +:+ Go.fmt_d ts +:+ Go.Ext filename
    ∧ compressedFileNameOf (fileNameWithoutExtOf filename) spec ts
        (fileExtOf filename)
      = basename +:+ "_" +:+ Go.fmt_d (Width spec) +:+ "x"
          +:+ Go.fmt_d (Height spec) +:+ "_" +:+ Go.fmt_d ts
          +:+ Go.Ext filename.
Proof.
  intros Hlow. destruct (Ext_suffix filename) as [basename Hname].
  exists basename. split; [exact Hname|].
  assert (fileNameWithoutExtOf filename = basename) as ->.
  { unfold fileNameWithoutExtOf. rewrite Hlow. revert Hname.
    generalize (Go.Ext filename). intros e ->. apply TrimSuffix_app. }
  rewrite Hlow. split; reflexivity.
Qed.

End Keys.

Example keys_of_photo_jpg `{Imaging} :
  originalFileNameOf (fileNameWithoutExtOf "photo.jpg") 1234567890
    (fileExtOf "photo.jpg")
  = "photo_1234567890.jpg"
  ∧ compressedFileNameOf (fileNameWithoutExtOf "photo.jpg")
      (mkCompressSpec 800 600) 1234567890 (fileExtOf "photo.jpg")
    = "photo_800x600_1234567890.jpg".
Proof. split; vm_compute; reflexivity. Qed.

(** C5, on a name with an upper-case extension: the extension is
    lower-cased, but it is then not found at the end of the name, so
    the name is not stripped and both keys keep [.JPG] inside. *)
Theorem uppercase_extension_stays_in_keys `{Imaging} :
  fileExtOf "photo.JPG" = ".jpg"
  ∧ fileNameWithoutExtOf "photo.JPG" = "photo.JPG"
  ∧ originalFileNameOf (fileNameWithoutExtOf "photo.JPG") 1234567890
      (fileExtOf "photo.JPG")
    = "photo.JPG_1234567890.jpg"
  ∧ compressedFileNameOf (fileNameWithoutExtOf "photo.JPG")
      (mkCompressSpec 800 600) 1234567890 (fileExtOf "photo.JPG")
    = "photo.JPG_800x600_1234567890.jpg".
Proof. repeat split; vm_compute; reflexivity. Qed.

(** ** The upload pipeline *)

Section Pipeline.
Context `{Imaging}.

Lemma ProcessAndUploadImage_decoded fileBytes filename specs w img format :
  decodeImage fileBytes = Ok (img, format) →
  ProcessAndUploadImage fileBytes filename specs w
  = match UploadFile fileBytes (originalKey filename w)
            (getContentType format) w with
    | (Err err, w1) =>
        (Err (Errorf_w "failed to upload original image: " err), w1)
    | (Ok url, w1) =>
        let '(resp, w2) :=
          processSpecs img format (fileNameWithoutExtOf filename)
            (clock w) (fileExtOf filename) specs
            (mkUploadResponse
               (mkImageResult (Dx (Bounds img)) (Dy (Bounds img)) url)
               (slice_of [])
               "Image uploaded and processed successfully") w1 in
        (Ok resp, w2)
    end.
Proof.
  intros Hdec. unfold ProcessAndUploadImage. rewrite Hdec.
  unfold mbind, M_bind, time_Now_UnixNano, originalKey.
  destruct (UploadFile fileBytes _ _ w) as [[url|err] w1]; reflexivity.
Qed.

Lemma ProcessAndUploadImage_original_stored
    fileBytes filename specs w img format :
  decodeImage fileBytes = Ok (img, format) →
  fault_at w 0 = None →
  ProcessAndUploadImage fileBytes filename specs w
  = let '(resp, w2) :=
      processSpecs img format (fileNameWithoutExtOf filename)
        (clock w) (fileExtOf filename) specs
        (initialResponse filename w img)
        (after_calls w
           (<[originalKey filename w :=
                mkObject fileBytes (getContentType format)]> (objects w))
           [CallPut (originalKey filename w) (getContentType format)] 1)
    in (Ok resp, w2).
Proof.
  intros Hdec Hput.
  rewrite (ProcessAndUploadImage_decoded _ _ _ _ _ _ Hdec).
  rewrite UploadFile_ok by exact Hput. reflexivity.
Qed.

End Pipeline.

(** C2: when the bytes do not decode, the request fails with a
    decode-class error and the world is left exactly as it was: no
    object is written and no collaborator is called. *)
Theorem decode_failure_writes_nothing `{Imaging}
    (fileBytes : list Byte.byte) (filename : string)
    (compressSizes : list CompressSpec) (w : World) (err : error) :
  decodeImage fileBytes = Err err →
  ∃ e, ProcessAndUploadImage fileBytes filename compressSizes w = (Err e, w)
       ∧ isDecodeFailed e.
Proof.
  intros Hdec. exists (Errorf_w "failed to decode image: " err).
  unfold ProcessAndUploadImage. rewrite Hdec.
  split; [reflexivity|]. by exists err.
Qed.

Lemma decode_failure_writes_nothing_witness :
  ∃ e, ProcessAndUploadImage [Byte.x00] "photo.jpg"
         [mkCompressSpec 80 60] (Toy.world []) = (Err e, Toy.world [])
       ∧ isDecodeFailed e.
Proof.
  apply (decode_failure_writes_nothing (H := Toy.imaging) [Byte.x00]
           "photo.jpg" [mkCompressSpec 80 60] (Toy.world [])
           (errors_New "image: unknown format")).
  reflexivity.
Defined.

(** C3: when the bytes decode and the put of the original fails, the
    request fails with an original-upload-class error; the bucket is
    unchanged and the only call made is that one put: no resize, no
    encode and no variant put for any spec. *)
Theorem original_upload_failure_stops `{Imaging}
    (fileBytes : list Byte.byte) (filename : string)
    (compressSizes : list CompressSpec) (w : World)
    (img : Image) (format : string) (err : error) :
  decodeImage fileBytes = Ok (img, format) →
  fault_at w 0 = Some err →
  ∃ e w',
    ProcessAndUploadImage fileBytes filename compressSizes w = (Err e, w')
    ∧ isOriginalUploadFailed e
    ∧ objects w' = objects w
    ∧ trace w'
      = trace w ++ [CallPut (originalKey filename w) (getContentType format)].
Proof.
  intros Hdec Hput.
  rewrite (ProcessAndUploadImage_decoded _ _ _ _ _ _ Hdec).
  rewrite UploadFile_err with (e := err) by exact Hput.
  eexists _, _. split; [reflexivity|].
  split; [by exists err|]. split; reflexivity.
Qed.

Lemma original_upload_failure_stops_witness :
  ∃ e w',
    ProcessAndUploadImage Toy.photo "photo.jpg"
      [mkCompressSpec 80 60; mkCompressSpec 40 30]
      (Toy.world [Some (errors_New "timeout")]) = (Err e, w')
    ∧ isOriginalUploadFailed e
    ∧ objects w' = ∅
    ∧ trace w' = [CallPut "photo_1234567890.jpg" "image/jpeg"].
Proof.
  apply (original_upload_failure_stops (H := Toy.imaging) Toy.photo
           "photo.jpg" [mkCompressSpec 80 60; mkCompressSpec 40 30]
           (Toy.world [Some (errors_New "timeout")])
           (Toy.mkRaster (Toy.sized 200 100) "jpeg") "jpeg"
           (errors_New "timeout")); reflexivity.
Defined.

(** C4: when the bytes decode, every response that the request returns
    carries, for whatever spec list the caller sent, the width and the
    height of the bounds of the decoded raster as the original's
    dimensions. *)
Theorem original_reports_decoded_bounds `{Imaging}
    (fileBytes : list Byte.byte) (filename : string)
    (compressSizes : list CompressSpec) (w : World)
    (img : Image) (format : string)
    (resp : UploadResponse) (w' : World) :
  decodeImage fileBytes = Ok (img, format) →
  ProcessAndUploadImage fileBytes filename compressSizes w = (Ok resp, w') →
  irWidth (OriginalImage resp) = Dx (Bounds img)
  ∧ irHeight (OriginalImage resp) = Dy (Bounds img).
Proof.
  intros Hdec Hrun.
  destruct (fault_at w 0) as [e|] eqn:Hput.
  { rewrite (ProcessAndUploadImage_decoded _ _ _ _ _ _ Hdec) in Hrun.
    rewrite UploadFile_err with (e := e) in Hrun by exact Hput.
    discriminate. }
  rewrite (ProcessAndUploadImage_original_stored _ _ _ _ _ _ Hdec Hput)
    in Hrun.
  pose proof (processSpecs_keeps_original img format
                (fileNameWithoutExtOf filename) (clock w)
                (fileExtOf filename) compressSizes
                (initialResponse filename w img)) as Hkeep.
  match type of Hrun with context [processSpecs ?a ?b ?c ?d ?e ?f ?g ?h] =>
    specialize (Hkeep h); destruct (processSpecs a b c d e f g h)
      as [resp2 w2] end.
  simpl in Hkeep. destruct Hkeep as [Ho _].
  injection Hrun as <- <-. rewrite Ho. split; reflexivity.
Qed.

Lemma original_reports_decoded_bounds_witness :
  irWidth (OriginalImage Sample.response) = 200
  ∧ irHeight (OriginalImage Sample.response) = 100.
Proof.
  apply (original_reports_decoded_bounds (H := Toy.imaging) Toy.photo
           "photo.jpg" Sample.specs Sample.start
           (Toy.mkRaster (Toy.sized 200 100) "jpeg") "jpeg"
           Sample.response Sample.finish);
    vm_compute; reflexivity.
Defined.

(** C1: when every spec encodes, the original is stored, and the put
    fails for exactly one spec of the list, the request succeeds; its
    variants are the entries of the other specs in the caller's order,
    one fewer than the specs; the specs after the failed one are still
    resized, encoded and stored. *)
Theorem one_failed_put_drops_one_variant `{Imaging}
    (fileBytes : list Byte.byte) (filename : string)
    (pre : list CompressSpec) (failed : CompressSpec)
    (post : list CompressSpec) (w : World)
    (img : Image) (format : string) (err : error) :
  decodeImage fileBytes = Ok (img, format) →
  Forall (encodes img format) (pre ++ failed :: post) →
  fault_at w 0 = None →
  fault_at w (S (length pre)) = Some err →
  (∀ i, (i < length (pre ++ failed :: post))%nat → i ≠ length pre →
        fault_at w (S i) = None) →
  ∃ resp w',
    ProcessAndUploadImage fileBytes filename (pre ++ failed :: post) w
    = (Ok resp, w')
    ∧ CompressedImages resp
      = slice_of (map (variantEntry filename w) (pre ++ post))
    ∧ length (elements (CompressedImages resp))
      = (length (pre ++ failed :: post) - 1)%nat
    ∧ objects w'
      = foldl (putVariant filename w img format)
          (<[originalKey filename w :=
               mkObject fileBytes (getContentType format)]> (objects w))
          (pre ++ post)
    ∧ trace w'
      = trace w
        ++ [CallPut (originalKey filename w) (getContentType format)]
        ++ concat (map (variantCalls filename w format) pre)
        ++ variantCalls filename w format failed
        ++ [LogPrintf ("Failed to upload compressed image: "
                         +:+ Error err)]
        ++ concat (map (variantCalls filename w format) post).
Proof.
  intros Hdec Henc Horig Hfail Hrest.
  apply Forall_app in Henc as [Hpre Henc].
  apply Forall_cons in Henc as [Hfailed Hpost].
  rewrite (ProcessAndUploadImage_original_stored _ _ _ _ _ _ Hdec Horig).
  unfold initialResponse.
  rewrite processSpecs_app, processSpecs_clean; [|exact Hpre|]; cycle 1.
  { intros i Hi. rewrite fault_at_after_calls. apply Hrest.
    - rewrite length_app. simpl. lia.
    - lia. }
  rewrite after_calls_twice.
  rewrite processSpecs_put_failed with (e := err); [|exact Hfailed|];
    cycle 1.
  { rewrite fault_at_after_calls. rewrite <- Hfail. f_equal. lia. }
  rewrite after_calls_twice.
  rewrite processSpecs_clean; [|exact Hpost|]; cycle 1.
  { intros i Hi. rewrite fault_at_after_calls.
    replace (1 + length pre + 1 + i)%nat with (S (S (length pre + i)))
      by lia.
    apply Hrest.
    - rewrite length_app. simpl. lia.
    - lia. }
  rewrite after_calls_twice.
  eexists _, _. split; [reflexivity|]. simpl.
  split; [|split; [|split]].
  - unfold variantEntry. by rewrite map_app.
  - rewrite length_app, !length_map, !length_app. simpl. lia.
  - unfold putVariant. by rewrite foldl_app.
  - unfold variantCalls. rewrite <- !app_assoc. reflexivity.
Qed.

Lemma one_failed_put_drops_one_variant_witness :
  ∃ resp w',
    ProcessAndUploadImage Toy.photo "photo.jpg"
      ([mkCompressSpec 80 60] ++ mkCompressSpec 40 30
         :: [mkCompressSpec 20 10])
      (Toy.world [None; None; Some (errors_New "slow down")])
    = (Ok resp, w')
    ∧ CompressedImages resp
      = slice_of
          [mkImageResult 80 60
             "https://bucket.s3.eu-west-1.amazonaws.com/photo_80x60_1234567890.jpg";
           mkImageResult 20 10
             "https://bucket.s3.eu-west-1.amazonaws.com/photo_20x10_1234567890.jpg"]
    ∧ length (elements (CompressedImages resp)) = 2%nat.
Proof.
  destruct (one_failed_put_drops_one_variant (H := Toy.imaging) Toy.photo
              "photo.jpg" [mkCompressSpec 80 60] (mkCompressSpec 40 30)
              [mkCompressSpec 20 10]
              (Toy.world [None; None; Some (errors_New "slow down")])
              (Toy.mkRaster (Toy.sized 200 100) "jpeg") "jpeg"
              (errors_New "slow down"))
    as (resp & w' & Hrun & Hvariants & Hlen & _).
  - reflexivity.
  - repeat constructor.
  - reflexivity.
  - reflexivity.
  - intros [|[|[|i]]] Hi Hne; simpl in *; try reflexivity; lia.
  - exists resp, w'. split; [exact Hrun|]. split; [exact Hvariants|].
    exact Hlen.
Defined.

(** C9: with an empty spec list, a decodable image and a successful put
    of the original, the request succeeds with the original's entry
    filled in and an empty, non-nil variants slice; the bucket gains the
    original and nothing else, through a single put. *)
Theorem empty_spec_list_stores_original_only `{Imaging}
    (fileBytes : list Byte.byte) (filename : string) (w : World)
    (img : Image) (format : string) :
  decodeImage fileBytes = Ok (img, format) →
  fault_at w 0 = None →
  ∃ resp w',
    ProcessAndUploadImage fileBytes filename [] w = (Ok resp, w')
    ∧ CompressedImages resp = slice_of []
    ∧ CompressedImages resp ≠ nil_slice
    ∧ OriginalImage resp
      = mkImageResult (Dx (Bounds img)) (Dy (Bounds img))
          (fileURL (cfg w) (originalKey filename w))
    ∧ objects w'
      = <[originalKey filename w :=
            mkObject fileBytes (getContentType format)]> (objects w)
    ∧ trace w'
      = trace w ++ [CallPut (originalKey filename w) (getContentType format)].
Proof.
  intros Hdec Hput.
  rewrite (ProcessAndUploadImage_original_stored _ _ _ _ _ _ Hdec Hput).
  simpl. eexists _, _. split; [reflexivity|]. simpl.
  repeat split; done.
Qed.

Lemma empty_spec_list_stores_original_only_witness :
  ∃ resp w',
    ProcessAndUploadImage Toy.photo "photo.jpg" [] (Toy.world [])
    = (Ok resp, w')
    ∧ CompressedImages resp = slice_of []
    ∧ CompressedImages resp ≠ nil_slice
    ∧ OriginalImage resp
      = mkImageResult 200 100
          "https://bucket.s3.eu-west-1.amazonaws.com/photo_1234567890.jpg"
    ∧ objects w'
      = <["photo_1234567890.jpg" := mkObject Toy.photo "image/jpeg"]> ∅
    ∧ trace w' = [CallPut "photo_1234567890.jpg" "image/jpeg"].
Proof.
  apply (empty_spec_list_stores_original_only (H := Toy.imaging) Toy.photo
           "photo.jpg" (Toy.world [])
           (Toy.mkRaster (Toy.sized 200 100) "jpeg") "jpeg"); reflexivity.
Defined.

(** ** Duplicate specs *)

Lemma putKeys_app t1 t2 : putKeys (t1 ++ t2) = putKeys t1 ++ putKeys t2.
Proof.
  induction t1 as [|e t1 IH]; [done|].
  destruct e; simpl; by rewrite ?IH.
Qed.

Section Bucket.
Context `{Imaging}.
Variables (img : Image) (format : string).
Variables (base : string) (ts : Z) (ext : string).

Local Abbreviation key := (keyOf base ts ext).
Local Abbreviation tried := (attempt format base ts ext).
Local Abbreviation put := (withVariant img format base ts ext).

Lemma putKeys_attempts specs :
  putKeys (concat (map tried specs)) = map key specs.
Proof.
  induction specs as [|spec rest IH]; [done|].
  simpl. by rewrite IH.
Qed.

(** The keys of the bucket after the variants were put: one per key,
    however often a spec occurs. *)
Lemma foldl_withVariant_dom specs : ∀ m,
  Forall (encodes img format) specs →
  dom (foldl put m specs) = dom m ∪ list_to_set (map key specs).
Proof.
  induction specs as [|spec rest IH]; intros m Henc; simpl.
  - by rewrite union_empty_r_L.
  - apply Forall_cons in Henc as [Hs Hrest]. rewrite IH by exact Hrest.
    unfold withVariant. unfold encodes in Hs.
    destruct (encodeOf format (resizedOf img spec)); [|discriminate].
    rewrite dom_insert_L, (comm_L (∪) {[key spec]} (dom m)).
    by rewrite <- (assoc_L (∪)).
Qed.

(** What is found under the key of a spec of the list: its encoded
    variant, whichever occurrence wrote last. *)
Lemma foldl_withVariant_lookup specs : ∀ m spec buf,
  spec ∈ specs →
  encodeOf format (resizedOf img spec) = Ok buf →
  foldl put m specs !! key spec
  = Some (mkObject buf (getContentType format)).
Proof.
  induction specs as [|last front IH] using rev_ind;
    intros m spec buf Hin Hbuf.
  - by apply elem_of_nil in Hin.
  - rewrite foldl_app. simpl.
    destruct (decide (last = spec)) as [->|Hne].
    + unfold withVariant. rewrite Hbuf. by rewrite lookup_insert_eq.
    + apply elem_of_app in Hin as [Hin|Hin%list_elem_of_singleton];
        [|congruence].
      unfold withVariant at 1.
      destruct (encodeOf format (resizedOf img last)); [|by apply IH].
      rewrite lookup_insert_ne; [by apply IH|].
      intros Hk. apply Hne. by apply compressedFileNameOf_inj in Hk.
Qed.

End Bucket.

(** C6, as the code has it: in a request whose specs all encode and
    whose puts all succeed, two occurrences of one (width, height) pair
    are put under one and the same key, so the bucket holds a single
    artifact for the pair, the encoded variant; both occurrences are
    reported, with the same URL.  Two variant keys of a request are
    equal only when the two pairs are. *)
Theorem duplicate_specs_share_one_key `{Imaging}
    (fileBytes : list Byte.byte) (filename : string)
    (compressSizes : list CompressSpec) (w : World)
    (img : Image) (format : string)
    (spec : CompressSpec) (i j : nat) (buf : list Byte.byte) :
  decodeImage fileBytes = Ok (img, format) →
  Forall (encodes img format) compressSizes →
  (∀ k, (k ≤ length compressSizes)%nat → fault_at w k = None) →
  i ≠ j →
  compressSizes !! i = Some spec →
  compressSizes !! j = Some spec →
  encodeOf format (resizedOf img spec) = Ok buf →
  ∃ resp w',
    ProcessAndUploadImage fileBytes filename compressSizes w = (Ok resp, w')
    ∧ elements (CompressedImages resp) !! i
      = Some (variantEntry filename w spec)
    ∧ elements (CompressedImages resp) !! j
      = Some (variantEntry filename w spec)
    ∧ putKeys (trace w')
      = putKeys (trace w) ++ originalKey filename w
          :: map (variantKey filename w) compressSizes
    ∧ dom (objects w')
      = dom (objects w) ∪ {[originalKey filename w]}
          ∪ list_to_set (map (variantKey filename w) compressSizes)
    ∧ objects w' !! variantKey filename w spec
      = Some (mkObject buf (getContentType format))
    ∧ (∀ spec1 spec2,
         variantKey filename w spec1 = variantKey filename w spec2 ↔
         spec1 = spec2).
Proof.
  intros Hdec Henc Hput Hij Hi Hj Hbuf.
  rewrite (ProcessAndUploadImage_original_stored _ _ _ _ _ _ Hdec);
    [|apply Hput; lia].
  unfold initialResponse. rewrite processSpecs_clean; [|exact Henc|].
  2:{ intros k Hk. rewrite fault_at_after_calls. apply Hput. lia. }
  rewrite after_calls_twice.
  eexists _, _. split; [reflexivity|]. simpl.
  split; [|split; [|split; [|split; [|split]]]].
  - rewrite list_lookup_fmap, Hi. reflexivity.
  - rewrite list_lookup_fmap, Hj. reflexivity.
  - rewrite putKeys_app. simpl. by rewrite putKeys_attempts.
  - rewrite foldl_withVariant_dom by exact Henc.
    rewrite dom_insert_L, (comm_L (∪) {[originalKey filename w]}).
    reflexivity.
  - apply foldl_withVariant_lookup; [|exact Hbuf].
    by apply list_elem_of_lookup_2 in Hi.
  - intros spec1 spec2. split; [|by intros ->].
    apply compressedFileNameOf_inj.
Qed.

Lemma duplicate_specs_share_one_key_witness :
  ∃ resp w',
    ProcessAndUploadImage Toy.photo "photo.jpg"
      [mkCompressSpec 80 60; mkCompressSpec 40 30; mkCompressSpec 80 60]
      (Toy.world []) = (Ok resp, w')
    ∧ putKeys (trace w')
      = ["photo_1234567890.jpg"; "photo_80x60_1234567890.jpg";
         "photo_40x30_1234567890.jpg"; "photo_80x60_1234567890.jpg"]
    ∧ objects w' !! "photo_80x60_1234567890.jpg"
      = Some (mkObject [Byte.xff; Byte.x50; Byte.x3c] "image/jpeg").
Proof.
  destruct (duplicate_specs_share_one_key (H := Toy.imaging) Toy.photo
              "photo.jpg"
              [mkCompressSpec 80 60; mkCompressSpec 40 30;
               mkCompressSpec 80 60]
              (Toy.world []) (Toy.mkRaster (Toy.sized 200 100) "jpeg")
              "jpeg" (mkCompressSpec 80 60) 0 2
              [Byte.xff; Byte.x50; Byte.x3c])
    as (resp & w' & Hrun & _ & _ & Hkeys & _ & Hobj & _).
  - reflexivity.
  - repeat constructor.
  - intros [|[|[|[|k]]]] Hk; simpl in *; try reflexivity; lia.
  - lia.
  - reflexivity.
  - reflexivity.
  - reflexivity.
  - exists resp, w'. split; [exact Hrun|]. split; [exact Hkeys|].
    exact Hobj.
Defined.

(** C6 as stated does not hold: a request with the pair 80x60 twice
    puts both variants under one key and leaves two objects in an empty
    bucket, the original and one variant. *)
Lemma duplicate_specs_collide :
  ∃ resp w',
    ProcessAndUploadImage Toy.photo "photo.jpg"
      [mkCompressSpec 80 60; mkCompressSpec 80 60] (Toy.world [])
    = (Ok resp, w')
    ∧ putKeys (trace w')
      = ["photo_1234567890.jpg"; "photo_80x60_1234567890.jpg";
         "photo_80x60_1234567890.jpg"]
    ∧ ¬ NoDup (putKeys (trace w'))
    ∧ size (objects w') = 2%nat.
Proof.
  eexists _, _. split; [vm_compute; reflexivity|].
  split; [reflexivity|]. split; [|reflexivity].
  simpl. intros Hnd. apply NoDup_cons in Hnd as [_ Hnd].
  apply NoDup_cons in Hnd as [Hnotin _]. apply Hnotin. by left.
Qed.

(** ** Dimensions reported for a variant *)

Section Reported.
Context `{Imaging}.
Variables (img : Image) (format : string).
Variables (base : string) (ts : Z) (ext : string).

(** Every entry the loop adds carries the numbers of its spec. *)
Lemma processSpecs_entries_requested (all : list CompressSpec) specs :
  ∀ resp w,
    specs ⊆ all →
    Forall (requested all) (elements (CompressedImages resp)) →
    Forall (requested all)
      (elements (CompressedImages
         (fst (processSpecs img format base ts ext specs resp w)))).
Proof.
  induction specs as [|spec rest IH]; intros resp w Hsub Hresp;
    [exact Hresp|].
  assert (spec ∈ all) as Hspec by (apply Hsub; left).
  assert (rest ⊆ all) as Hrest by (intros x Hx; apply Hsub; by right).
  rewrite processSpecs_cons. cbv zeta.
  destruct (encodeOf format (resizedOf img spec)) as [buf|e];
    [|by apply IH].
  destruct (UploadFile buf _ _ _) as [[url|e] w2]; [|by apply IH].
  apply IH; [exact Hrest|]. simpl.
  apply Forall_app. split; [exact Hresp|].
  apply Forall_singleton. by exists spec.
Qed.

End Reported.

(** The width and height of every variant in a response are those of a
    spec of the request, whatever raster the resizer returned. *)
Lemma variants_carry_requested_size `{Imaging}
    (fileBytes : list Byte.byte) (filename : string)
    (compressSizes : list CompressSpec) (w : World)
    (resp : UploadResponse) (w' : World) :
  ProcessAndUploadImage fileBytes filename compressSizes w = (Ok resp, w') →
  Forall (requested compressSizes) (elements (CompressedImages resp)).
Proof.
  destruct (decodeImage fileBytes) as [[img format]|err] eqn:Hdec.
  - rewrite (ProcessAndUploadImage_decoded _ _ _ _ _ _ Hdec).
    destruct (UploadFile fileBytes _ _ w) as [[url|err] w1];
      [|discriminate].
    match goal with |- context [processSpecs ?a ?b ?c ?d ?e ?f ?g ?h] =>
      pose proof (processSpecs_entries_requested a b c d e compressSizes
                    f g h) as Hreq;
      destruct (processSpecs a b c d e f g h) as [resp2 w2] end.
    intros [= <- <-]. apply Hreq; [done|]. simpl. constructor.
  - unfold ProcessAndUploadImage. rewrite Hdec. discriminate.
Qed.

(** C7, on the spec 0x0: the resizer hands back the 200x100 source, it
    is that raster which is encoded and stored, and the variant is
    reported as 0 wide and 0 high. *)
Theorem zero_spec_reports_zero_size :
  ∃ resp w' stored,
    ProcessAndUploadImage Toy.photo "photo.jpg" [mkCompressSpec 0 0]
      (Toy.world []) = (Ok resp, w')
    ∧ CompressedImages resp
      = slice_of
          [mkImageResult 0 0
             "https://bucket.s3.eu-west-1.amazonaws.com/photo_0x0_1234567890.jpg"]
    ∧ Bounds (resizedOf (Toy.mkRaster (Toy.sized 200 100) "jpeg")
                (mkCompressSpec 0 0))
      = Toy.sized 200 100
    ∧ objects w' !! "photo_0x0_1234567890.jpg" = Some stored
    ∧ image_Decode (Body stored)
      = Ok (Toy.mkRaster (Toy.sized 200 100) "jpeg", "jpeg").
Proof.
  eexists _, _, _. split; [vm_compute; reflexivity|].
  repeat split; reflexivity.
Qed.

(** ** Splitting *)

Lemma Split_nonempty s sep : Go.Split s sep ≠ [].
Proof.
  destruct s as [|c s]; simpl; [done|].
  destruct (bool_decide (c = sep)); [done|].
  by destruct (Go.Split s sep).
Qed.

Lemma Split_without s sep : without sep s = true → Go.Split s sep = [s].
Proof.
  unfold without. induction s as [|c s IH]; [done|]. simpl.
  intros [Hc Hs]%andb_true_iff. apply negb_true_iff in Hc.
  rewrite Hc, (IH Hs). reflexivity.
Qed.

Lemma Split_cut p sep rest :
  without sep p = true →
  Go.Split (p +:+ String sep rest) sep = p :: Go.Split rest sep.
Proof.
  unfold without. induction p as [|c p IH].
  - intros _. rewrite str_app_nil_l. simpl.
    by rewrite bool_decide_eq_true_2.
  - simpl. intros [Hc Hp]%andb_true_iff. apply negb_true_iff in Hc.
    rewrite Hc, (IH Hp). reflexivity.
Qed.

Lemma concat_cons2 sep p q l :
  String.concat sep (p :: q :: l) = p +:+ sep +:+ String.concat sep (q :: l).
Proof. reflexivity. Qed.

(** [strings.Split] returns the segments ... *)
Lemma Split_segments s sep : segments sep s (Go.Split s sep).
Proof.
  split; [apply Split_nonempty|].
  induction s as [|c s [IHw IHj]]; [by repeat constructor|].
  simpl. pose proof (Split_nonempty s sep) as Hne.
  destruct (bool_decide (c = sep)) eqn:Hc.
  - apply bool_decide_eq_true in Hc as ->.
    destruct (Go.Split s sep) as [|q l]; [done|].
    split; [by constructor|].
    rewrite concat_cons2, IHj. reflexivity.
  - destruct (Go.Split s sep) as [|q l]; [done|].
    apply Forall_cons in IHw as [Hq Hl]. split.
    + constructor; [|exact Hl]. unfold without in *. simpl.
      by rewrite Hc, Hq.
    + destruct l as [|q' l]; simpl in *; [by rewrite IHj|].
      rewrite <- IHj. reflexivity.
Qed.

(** ... and nothing else is. *)
Lemma segments_Split sep parts : ∀ s,
  segments sep s parts → Go.Split s sep = parts.
Proof.
  induction parts as [|p parts IH]; intros s (Hne & Hw & Hj); [done|].
  apply Forall_cons in Hw as [Hp Hw].
  destruct parts as [|q l].
  - simpl in Hj. subst s. by apply Split_without.
  - rewrite concat_cons2 in Hj. subst s.
    change (String sep "" +:+ ?t) with (String sep t).
    rewrite Split_cut by exact Hp. f_equal.
    apply IH. by repeat split.
Qed.

Lemma segments_unique sep s parts1 parts2 :
  segments sep s parts1 → segments sep s parts2 → parts1 = parts2.
Proof. intros H1%segments_Split H2%segments_Split. congruence. Qed.

Lemma last_two {A} (l : list A) :
  (2 ≤ length l)%nat → ∃ front a b, l = front ++ [a; b].
Proof.
  intros Hlen.
  destruct l as [|b l'] using rev_ind; [simpl in Hlen; lia|].
  destruct l' as [|a l''] using rev_ind.
  { simpl in Hlen. lia. }
  exists l'', a, b. by rewrite <- app_assoc.
Qed.

(** The segment the code picks with [parts[len(parts)-2]]. *)
Lemma secondToLast_nth filename seg :
  secondToLast filename seg ↔
  (2 ≤ length (Go.Split filename "_"))%nat
  ∧ nth (length (Go.Split filename "_") - 2) (Go.Split filename "_") "" = seg.
Proof.
  split.
  - intros (front & last & Hseg). rewrite (segments_Split _ _ _ Hseg).
    rewrite length_app. simpl. split; [lia|].
    replace (length front + 2 - 2)%nat with (length front) by lia.
    by rewrite nth_middle.
  - intros [Hlen Hnth].
    destruct (last_two _ Hlen) as (front & a & b & Hparts).
    rewrite Hparts in Hnth. rewrite length_app in Hnth. simpl in Hnth.
    replace (length front + 2 - 2)%nat with (length front) in Hnth by lia.
    rewrite nth_middle in Hnth. subst a.
    exists front, b. rewrite <- Hparts. apply Split_segments.
Qed.

Lemma scansAsWxH_Split seg W H :
  scansAsWxH seg W H ↔
  ∃ a b, Go.Split seg "x" = [a; b]
         ∧ Go.Sscanf_d a = Some W ∧ Go.Sscanf_d b = Some H.
Proof.
  split; intros (a & b & Hseg & Ha & Hb); exists a, b;
    (split; [|done]).
  - by apply segments_Split.
  - rewrite <- Hseg. apply Split_segments.
Qed.

(** ** Scanning *)

Lemma digit_is_scanned c s :
  Go.isDigit c = true →
  Go.SkipSpace (String c s) = Some (String c s)
  ∧ Go.acceptSign (String c s) = (false, String c s).
Proof.
  destruct c as [[] [] [] [] [] [] [] []]; try discriminate;
    intros _; split; reflexivity.
Qed.

Lemma scanNumber_digits s :
  all_bytes Go.isDigit s = true → Go.scanNumber s = s.
Proof.
  induction s as [|c s IH]; [done|]. simpl.
  intros [Hc Hs]%andb_true_iff. by rewrite Hc, (IH Hs).
Qed.

(** A decimal numeral below 2^63 is scanned to its value. *)
Lemma Sscanf_d_decimal s n :
  decimal s n → n < 2 ^ 63 → Go.Sscanf_d s = Some n.
Proof.
  intros (Hne & Hdigits & Hval) Hn.
  destruct s as [|c s]; [done|].
  pose proof Hdigits as [Hc _]%andb_true_iff.
  destruct (digit_is_scanned c s Hc) as [Hskip Hsign].
  unfold Go.Sscanf_d. rewrite Hskip, Hsign.
  rewrite scanNumber_digits by exact Hdigits.
  unfold Go.ParseInt. rewrite Hval.
  by rewrite (proj2 (Z.ltb_lt n (2 ^ 63)) Hn).
Qed.

Lemma digits_without_x s :
  all_bytes Go.isDigit s = true → without "x" s = true.
Proof.
  apply all_bytes_impl. intros c Hc.
  apply negb_true_iff, bool_decide_eq_false. intros ->. discriminate.
Qed.

Lemma writtenAsWxH_scans seg W H :
  writtenAsWxH seg W H → W < 2 ^ 63 → H < 2 ^ 63 → scansAsWxH seg W H.
Proof.
  intros (a & b & -> & Ha & Hb) HW HH. exists a, b.
  split; [|split; by apply Sscanf_d_decimal].
  destruct Ha as (_ & Ha & _), Hb as (_ & Hb & _).
  split; [done|]. split; [|reflexivity].
  repeat constructor; by apply digits_without_x.
Qed.

(** ** What [GetImageInfo] returns *)

(** The two outcomes of lines 124-148. *)
Lemma filenameDimensions_cases filename :
  (∃ seg W H,
     secondToLast filename seg ∧ scansAsWxH seg W H ∧ W > 0 ∧ H > 0
     ∧ filenameDimensions filename = (W, H))
  ∨ ((¬ ∃ seg W H,
        secondToLast filename seg ∧ scansAsWxH seg W H ∧ W > 0 ∧ H > 0)
     ∧ filenameDimensions filename = (0, 0)).
Proof.
  unfold filenameDimensions.
  destruct (bool_decide (2 ≤ length (Go.Split filename "_"))%nat)
    eqn:Hlen.
  2:{ right. split; [|reflexivity].
      apply bool_decide_eq_false in Hlen.
      intros (seg & W & H & [Hl _]%secondToLast_nth & _). done. }
  apply bool_decide_eq_true in Hlen.
  set (seg := nth (length (Go.Split filename "_") - 2)
                (Go.Split filename "_") "").
  assert (secondToLast filename seg) as Hseg
    by (apply secondToLast_nth; done).
  assert (∀ seg', secondToLast filename seg' → seg' = seg) as Hone.
  { intros seg' [_ Hnth]%secondToLast_nth. by rewrite <- Hnth. }
  destruct (bool_decide (length (Go.Split seg "x") = 2%nat)) eqn:Hdim.
  2:{ right. split; [|reflexivity].
      apply bool_decide_eq_false in Hdim.
      intros (seg' & W & H & Hs & Hscan & _).
      apply Hone in Hs as ->.
      apply scansAsWxH_Split in Hscan as (a & b & Hab & _).
      apply Hdim. by rewrite Hab. }
  apply bool_decide_eq_true in Hdim.
  destruct (Go.Split seg "x") as [|a [|b [|? ?]]] eqn:Hab;
    try discriminate. simpl.
  assert (∀ seg' W H, secondToLast filename seg' → scansAsWxH seg' W H →
            Go.Sscanf_d a = Some W ∧ Go.Sscanf_d b = Some H) as Hscans.
  { intros seg' W H Hs Hscan. apply Hone in Hs as ->.
    apply scansAsWxH_Split in Hscan as (a' & b' & Hab' & Ha & Hb).
    rewrite Hab in Hab'. by simplify_eq. }
  unfold scanInto.
  destruct (Go.Sscanf_d a) as [W|] eqn:Ha;
    destruct (Go.Sscanf_d b) as [H|] eqn:Hb; simpl.
  - destruct (bool_decide (W > 0)) eqn:HW;
      [destruct (bool_decide (H > 0)) eqn:HH|]; simpl.
    + apply bool_decide_eq_true in HW, HH. left. exists seg, W, H.
      repeat split; try done.
      apply scansAsWxH_Split. by exists a, b.
    + right. split; [|reflexivity].
      apply bool_decide_eq_false in HH.
      intros (seg' & W' & H' & Hs & Hscan & _ & Hpos).
      destruct (Hscans _ _ _ Hs Hscan) as [_ [= <-]]. done.
    + right. split; [|reflexivity].
      apply bool_decide_eq_false in HW.
      intros (seg' & W' & H' & Hs & Hscan & Hpos & _).
      destruct (Hscans _ _ _ Hs Hscan) as [[= <-] _]. done.
  - right. rewrite andb_false_r. split; [|reflexivity].
    intros (seg' & W' & H' & Hs & Hscan & _).
    by destruct (Hscans _ _ _ Hs Hscan) as [_ ?].
  - right. split; [|reflexivity].
    intros (seg' & W' & H' & Hs & Hscan & _).
    by destruct (Hscans _ _ _ Hs Hscan) as [? _].
  - right. split; [|reflexivity].
    intros (seg' & W' & H' & Hs & Hscan & _).
    by destruct (Hscans _ _ _ Hs Hscan) as [? _].
Qed.

Lemma GetImageInfo_run filename w :
  fst (GetImageInfo filename w)
  = match fst (GetFile filename w) with
    | Ok true =>
        Ok (mkImageResult (fst (filenameDimensions filename))
              (snd (filenameDimensions filename))
              ("https://s3-url/" +:+ filename))
    | _ => Err (errors_New "image not found")
    end.
Proof.
  unfold GetImageInfo, mbind, M_bind.
  destruct (GetFile filename w) as [[[|]|e] w1]; simpl;
    [|reflexivity..].
  by destruct (filenameDimensions filename).
Qed.

(** C10, as the code has it: an error when the existence check does not
    succeed; otherwise the URL and the dimensions scanned from the
    second-to-last underscore-separated segment when it is two pieces
    around one [x] that [%d] scans to positive [W] and [H], and 0 and 0
    for every other name.  A segment written [<W>x<H>] with both
    numerals below 2^63 is scanned to [W] and [H]. *)
Theorem GetImageInfo_scans_dimensions (filename : string) (w : World) :
  (fst (GetFile filename w) ≠ Ok true →
   fst (GetImageInfo filename w) = Err (errors_New "image not found"))
  ∧ (fst (GetFile filename w) = Ok true →
     ∃ W H,
       fst (GetImageInfo filename w)
       = Ok (mkImageResult W H ("https://s3-url/" +:+ filename))
       ∧ ((∃ seg, secondToLast filename seg ∧ scansAsWxH seg W H
                  ∧ W > 0 ∧ H > 0)
          ∨ (W = 0 ∧ H = 0
             ∧ ¬ ∃ seg W' H', secondToLast filename seg
                              ∧ scansAsWxH seg W' H' ∧ W' > 0 ∧ H' > 0)))
  ∧ (∀ seg W H,
       writtenAsWxH seg W H → W < 2 ^ 63 → H < 2 ^ 63 →
       scansAsWxH seg W H).
Proof.
  rewrite GetImageInfo_run. split; [|split].
  - destruct (fst (GetFile filename w)) as [[|]|e]; done.
  - intros ->.
    destruct (filenameDimensions_cases filename)
      as [(seg & W & H & Hseg & Hscan & HW & HH & ->)|[Hnone ->]]; simpl.
    + exists W, H. split; [reflexivity|]. left. by exists seg.
    + exists 0, 0. split; [reflexivity|]. by right.
  - apply writtenAsWxH_scans.
Qed.

Lemma GetImageInfo_scans_dimensions_witness :
  ∃ W H,
    fst (GetImageInfo "photo_800x600_1234567890.jpg"
           (mkWorld
              (<["photo_800x600_1234567890.jpg" :=
                   mkObject [Byte.xff; Byte.x50; Byte.x3c] "image/jpeg"]> ∅)
              [] Toy.config 0 []))
    = Ok (mkImageResult W H
            "https://s3-url/photo_800x600_1234567890.jpg")
    ∧ ((∃ seg, secondToLast "photo_800x600_1234567890.jpg" seg
               ∧ scansAsWxH seg W H ∧ W > 0 ∧ H > 0)
       ∨ (W = 0 ∧ H = 0
          ∧ ¬ ∃ seg W' H',
                secondToLast "photo_800x600_1234567890.jpg" seg
                ∧ scansAsWxH seg W' H' ∧ W' > 0 ∧ H' > 0)).
Proof.
  apply (proj1 (proj2 (GetImageInfo_scans_dimensions
                         "photo_800x600_1234567890.jpg" _))).
  vm_compute. reflexivity.
Defined.

Example GetImageInfo_variant_name :
  fst (GetImageInfo "photo_800x600_1234567890.jpg"
         (mkWorld
            (<["photo_800x600_1234567890.jpg" :=
                 mkObject [Byte.xff; Byte.x50; Byte.x3c] "image/jpeg"]> ∅)
            [] Toy.config 0 []))
  = Ok (mkImageResult 800 600
          "https://s3-url/photo_800x600_1234567890.jpg").
Proof. vm_compute. reflexivity. Qed.

Example GetImageInfo_missing :
  fst (GetImageInfo "photo_800x600_1234567890.jpg" (Toy.world []))
  = Err (errors_New "image not found").
Proof. vm_compute. reflexivity. Qed.

(** C10 as stated does not hold: the segment [12abx7] is not written
    [<W>x<H>], yet [%d] scans 12 and 7 off its two pieces and the
    name is reported as 12 by 7, not 0 by 0. *)
Lemma lenient_scan_is_not_as_stated :
  filenameDimensions "img_12abx7_1.png" = (12, 7)
  ∧ ¬ dimensions_as_stated "img_12abx7_1.png".
Proof.
  split; [reflexivity|]. intros [_ Hzero].
  assert (filenameDimensions "img_12abx7_1.png" = (12, 7)) as Hdims
    by reflexivity.
  rewrite Hzero in Hdims; [discriminate|].
  intros (seg & W & H & Hseg & (a & b & Heq & (_ & Ha & _) & _) & _).
  apply secondToLast_nth in Hseg as [_ Hnth]. vm_compute in Hnth.
  subst seg.
  destruct a as [|c1 [|c2 [|c3 a]]];
    rewrite ?str_app_cons, ?str_app_nil_l in Heq;
    try discriminate.
  injection Heq as <- <- <- _. discriminate.
Qed.

(** * Further properties *)

(** ** The loop under any pattern of failures *)

Lemma UploadFile_cases fileBytes fileName contentType w :
  (∃ e, fault_at w 0 = Some e
        ∧ UploadFile fileBytes fileName contentType w
          = (Err e,
             after_calls w (objects w) [CallPut fileName contentType] 1))
  ∨ (fault_at w 0 = None
     ∧ UploadFile fileBytes fileName contentType w
       = (Ok (fileURL (cfg w) fileName),
          after_calls w
            (<[fileName := mkObject fileBytes contentType]> (objects w))
            [CallPut fileName contentType] 1)).
Proof.
  destruct (fault_at w 0) as [e|] eqn:Hf.
  - left. exists e. split; [done|]. by apply UploadFile_err.
  - right. split; [done|]. by apply UploadFile_ok.
Qed.

Lemma resizeCalls_app t1 t2 :
  resizeCalls (t1 ++ t2) = resizeCalls t1 ++ resizeCalls t2.
Proof.
  induction t1 as [|e t1 IH]; [done|].
  destruct e; simpl; by rewrite ?IH.
Qed.

Section LoopFacts.
Context `{Imaging}.
Variables (img : Image) (format : string).
Variables (base : string) (ts : Z) (ext : string).

Local Abbreviation loop := (processSpecs img format base ts ext).
Local Abbreviation key := (keyOf base ts ext).

(** One turn of the loop, by what happened to the spec. *)
Lemma processSpecs_turn spec rest resp w :
  (∃ e evs,
     encodeOf format (resizedOf img spec) = Err e
     ∧ resizeCalls evs = [resizeTarget spec]
     ∧ loop (spec :: rest) resp w
       = loop rest resp (after_calls w (objects w) evs 0))
  ∨ (∃ buf evs,
       encodeOf format (resizedOf img spec) = Ok buf
       ∧ resizeCalls evs = [resizeTarget spec]
       ∧ loop (spec :: rest) resp w
         = loop rest resp (after_calls w (objects w) evs 1))
  ∨ (∃ buf evs,
       encodeOf format (resizedOf img spec) = Ok buf
       ∧ resizeCalls evs = [resizeTarget spec]
       ∧ loop (spec :: rest) resp w
         = loop rest
             (mkUploadResponse (OriginalImage resp)
                (append (CompressedImages resp)
                   (variantOf base ts ext (cfg w) spec))
                (Message resp))
             (after_calls w
                (<[key spec := mkObject buf (getContentType format)]>
                   (objects w))
                evs 1)).
Proof.
  rewrite processSpecs_cons. cbv zeta.
  destruct (encodeOf format (resizedOf img spec)) as [buf|e] eqn:Henc.
  - match goal with |- context [UploadFile ?b ?k ?c ?w1] =>
      destruct (UploadFile_cases b k c w1) as [(e & _ & ->)|[_ ->]] end.
    + right. left. eexists buf, _. split; [done|].
      rewrite !after_calls_twice. split; [|reflexivity]. reflexivity.
    + right. right. eexists buf, _. split; [done|].
      rewrite !after_calls_twice. split; [|reflexivity]. reflexivity.
  - left. eexists e, _. split; [done|].
    rewrite !after_calls_twice. split; [|reflexivity]. reflexivity.
Qed.

(** The loop does not change the configuration nor the clock. *)
Lemma processSpecs_cfg specs : ∀ resp w,
  cfg (snd (loop specs resp w)) = cfg w
  ∧ clock (snd (loop specs resp w)) = clock w.
Proof.
  induction specs as [|spec rest IH]; intros resp w; [done|].
  destruct (processSpecs_turn spec rest resp w)
    as [(e & evs & _ & _ & ->)|[(buf & evs & _ & _ & ->)
       |(buf & evs & _ & _ & ->)]];
    match goal with |- context [loop rest ?r ?w2] =>
      destruct (IH r w2) as [-> ->] end; done.
Qed.

(** No key leaves the bucket. *)
Lemma processSpecs_dom_mono specs : ∀ resp w,
  dom (objects w) ⊆ dom (objects (snd (loop specs resp w))).
Proof.
  induction specs as [|spec rest IH]; intros resp w; [done|].
  destruct (processSpecs_turn spec rest resp w)
    as [(e & evs & _ & _ & ->)|[(buf & evs & _ & _ & ->)
       |(buf & evs & _ & _ & ->)]].
  - apply (IH resp (after_calls w (objects w) evs 0)).
  - apply (IH resp (after_calls w (objects w) evs 1)).
  - etrans; [|apply IH]. simpl. rewrite dom_insert. apply union_subseteq_r.
Qed.

(** A key that is no variant key of the specs keeps what it had. *)
Lemma processSpecs_other_keys specs : ∀ resp w k,
  (∀ spec, spec ∈ specs → k ≠ key spec) →
  objects (snd (loop specs resp w)) !! k = objects w !! k.
Proof.
  induction specs as [|spec rest IH]; intros resp w k Hk; [done|].
  assert (∀ s, s ∈ rest → k ≠ key s) as Hrest
    by (intros s Hs; apply Hk; by right).
  destruct (processSpecs_turn spec rest resp w)
    as [(e & evs & _ & _ & ->)|[(buf & evs & _ & _ & ->)
       |(buf & evs & _ & _ & ->)]];
    rewrite IH by exact Hrest; simpl; [done..|].
  apply lookup_insert_ne. intros Heq. by apply (Hk spec); [left|].
Qed.

(** Every spec is resized, once and in order. *)
Lemma processSpecs_resizeCalls specs : ∀ resp w,
  resizeCalls (trace (snd (loop specs resp w)))
  = resizeCalls (trace w) ++ map resizeTarget specs.
Proof.
  induction specs as [|spec rest IH]; intros resp w.
  - simpl. by rewrite app_nil_r.
  - destruct (processSpecs_turn spec rest resp w)
      as [(e & evs & _ & Hevs & ->)|[(buf & evs & _ & Hevs & ->)
         |(buf & evs & _ & Hevs & ->)]];
      rewrite IH; simpl; rewrite resizeCalls_app, Hevs, <- app_assoc;
      reflexivity.
Qed.

(** The entries added are those of a sublist of the specs, in order,
    and each of them has its key in the bucket at the end. *)
Lemma processSpecs_kept specs : ∀ o l m w,
  ∃ kept,
    kept `sublist_of` specs
    ∧ fst (loop specs (mkUploadResponse o (slice_of l) m) w)
      = mkUploadResponse o
          (slice_of (l ++ map (variantOf base ts ext (cfg w)) kept)) m
    ∧ Forall (λ spec,
        key spec
        ∈ dom (objects (snd (loop specs
                               (mkUploadResponse o (slice_of l) m) w))))
        kept.
Proof.
  induction specs as [|spec rest IH]; intros o l m w.
  - exists []. simpl. by rewrite app_nil_r.
  - destruct (processSpecs_turn spec rest
                (mkUploadResponse o (slice_of l) m) w)
      as [(e & evs & _ & _ & ->)|[(buf & evs & _ & _ & ->)
         |(buf & evs & _ & _ & ->)]].
    + destruct (IH o l m (after_calls w (objects w) evs 0))
        as (kept & Hsub & -> & Hdom).
      exists kept. split; [by apply sublist_cons|]. done.
    + destruct (IH o l m (after_calls w (objects w) evs 1))
        as (kept & Hsub & -> & Hdom).
      exists kept. split; [by apply sublist_cons|]. done.
    + match goal with |- context [loop rest ?r ?w2] =>
        change r with
          (mkUploadResponse o
             (slice_of (l ++ [variantOf base ts ext (cfg w) spec])) m);
        destruct (IH o (l ++ [variantOf base ts ext (cfg w) spec]) m w2)
          as (kept & Hsub & Hfst & Hdom);
        pose proof (processSpecs_dom_mono rest
                      (mkUploadResponse o
                         (slice_of
                            (l ++ [variantOf base ts ext (cfg w) spec])) m)
                      w2) as Hmono end.
      exists (spec :: kept). split; [by apply sublist_skip|].
      split.
      * rewrite Hfst. simpl. by rewrite <- app_assoc.
      * constructor; [|exact Hdom]. apply Hmono. simpl.
        rewrite dom_insert. apply elem_of_union_l, elem_of_singleton.
        reflexivity.
Qed.

End LoopFacts.

(** ** A whole request under any pattern of failures *)

Section RequestFacts.
Context `{Imaging}.

(** What a successful request looks like: the image decoded, the
    original was put, and the loop ran from there. *)
Lemma ProcessAndUploadImage_Ok_inv fileBytes filename specs w resp w' :
  ProcessAndUploadImage fileBytes filename specs w = (Ok resp, w') →
  ∃ img format,
    decodeImage fileBytes = Ok (img, format)
    ∧ fault_at w 0 = None
    ∧ (resp, w')
      = processSpecs img format (fileNameWithoutExtOf filename) (clock w)
          (fileExtOf filename) specs (initialResponse filename w img)
          (after_calls w
             (<[originalKey filename w :=
                  mkObject fileBytes (getContentType format)]> (objects w))
             [CallPut (originalKey filename w) (getContentType format)] 1).
Proof.
  destruct (decodeImage fileBytes) as [[img format]|err] eqn:Hdec.
  2:{ unfold ProcessAndUploadImage. rewrite Hdec. discriminate. }
  destruct (fault_at w 0) as [e|] eqn:Hf.
  { rewrite (ProcessAndUploadImage_decoded _ _ _ _ _ _ Hdec).
    rewrite UploadFile_err with (e := e) by exact Hf. discriminate. }
  rewrite (ProcessAndUploadImage_original_stored _ _ _ _ _ _ Hdec Hf).
  intros Hrun. exists img, format. split; [done|]. split; [done|].
  destruct (processSpecs _ _ _ _ _ _ _ _) as [resp2 w2].
  by injection Hrun as <- <-.
Qed.

Lemma ProcessAndUploadImage_Ok_kept fileBytes filename specs w resp w' :
  ProcessAndUploadImage fileBytes filename specs w = (Ok resp, w') →
  ∃ img format kept,
    decodeImage fileBytes = Ok (img, format)
    ∧ kept `sublist_of` specs
    ∧ resp
      = mkUploadResponse
          (mkImageResult (Dx (Bounds img)) (Dy (Bounds img))
             (fileURL (cfg w) (originalKey filename w)))
          (slice_of (map (variantEntry filename w) kept))
          "Image uploaded and processed successfully"
    ∧ Forall (λ spec, variantKey filename w spec ∈ dom (objects w')) kept
    ∧ originalKey filename w ∈ dom (objects w').
Proof.
  intros (img & format & Hdec & Hf & Hloop)%ProcessAndUploadImage_Ok_inv.
  unfold initialResponse in Hloop.
  match type of Hloop with _ = processSpecs ?a ?b ?c ?d ?e ?f
                                 (mkUploadResponse ?o (slice_of ?l) ?m) ?w1 =>
    destruct (processSpecs_kept a b c d e f o l m w1)
      as (kept & Hsub & Hfst & Hdom);
    pose proof (processSpecs_dom_mono a b c d e f
                  (mkUploadResponse o (slice_of l) m) w1) as Hmono
  end.
  rewrite <- Hloop in Hfst, Hdom, Hmono. simpl in Hfst, Hdom, Hmono.
  exists img, format, kept. repeat split; try done.
  apply Hmono. rewrite dom_insert. apply elem_of_union_l, elem_of_singleton.
  reflexivity.
Qed.

End RequestFacts.

(** X1: whatever fails among the variants, the variants of a successful
    request are the entries of a sublist of the specs, in the caller's
    order, and the message is the fixed success text. *)
Theorem variants_follow_spec_order `{Imaging}
    (fileBytes : list Byte.byte) (filename : string)
    (compressSizes : list CompressSpec) (w : World)
    (resp : UploadResponse) (w' : World) :
  ProcessAndUploadImage fileBytes filename compressSizes w = (Ok resp, w') →
  Message resp = "Image uploaded and processed successfully"
  ∧ ∃ kept,
      kept `sublist_of` compressSizes
      ∧ CompressedImages resp
        = slice_of (map (variantEntry filename w) kept).
Proof.
  intros (img & format & kept & _ & Hsub & -> & _)%ProcessAndUploadImage_Ok_kept.
  split; [reflexivity|]. by exists kept.
Qed.

Lemma variants_follow_spec_order_witness :
  Message Sample.response = "Image uploaded and processed successfully"
  ∧ ∃ kept,
      kept `sublist_of` Sample.specs
      ∧ CompressedImages Sample.response
        = slice_of (map (variantEntry "photo.jpg" Sample.start) kept).
Proof.
  apply (variants_follow_spec_order (H := Toy.imaging) Toy.photo
           "photo.jpg" Sample.specs Sample.start Sample.response
           Sample.finish).
  vm_compute. reflexivity.
Defined.

Lemma Ok_response_stored `{Imaging}
    (fileBytes : list Byte.byte) (filename : string)
    (compressSizes : list CompressSpec) (w : World)
    (resp : UploadResponse) (w' : World) :
  ProcessAndUploadImage fileBytes filename compressSizes w = (Ok resp, w') →
  URL (OriginalImage resp) = fileURL (cfg w) (originalKey filename w)
  ∧ originalKey filename w ∈ dom (objects w')
  ∧ Forall (λ r,
      ∃ spec, spec ∈ compressSizes
              ∧ r = variantEntry filename w spec
              ∧ URL r = fileURL (cfg w) (variantKey filename w spec)
              ∧ variantKey filename w spec ∈ dom (objects w'))
      (elements (CompressedImages resp)).
Proof.
  intros (img & format & kept & _ & Hsub & -> & Hdom & Horig)
    %ProcessAndUploadImage_Ok_kept.
  split; [reflexivity|]. split; [exact Horig|]. simpl.
  apply Forall_fmap. apply Forall_forall. intros spec Hspec. simpl.
  exists spec. split; [by eapply elem_of_sublist|].
  split; [reflexivity|]. split; [reflexivity|].
  by apply (proj1 (Forall_forall _ _) Hdom).
Qed.

(** X2: every URL of a successful response is the URL of a key that is in
    the bucket when the request returns: the original's, and for each
    variant that of a spec of the request. *)
Theorem response_urls_are_stored `{Imaging}
    (fileBytes : list Byte.byte) (filename : string)
    (compressSizes : list CompressSpec) (w : World)
    (resp : UploadResponse) (w' : World) :
  ProcessAndUploadImage fileBytes filename compressSizes w = (Ok resp, w') →
  URL (OriginalImage resp) = fileURL (cfg w) (originalKey filename w)
  ∧ originalKey filename w ∈ dom (objects w')
  ∧ Forall (λ r,
      ∃ spec, spec ∈ compressSizes
              ∧ r = variantEntry filename w spec
              ∧ URL r = fileURL (cfg w) (variantKey filename w spec)
              ∧ variantKey filename w spec ∈ dom (objects w'))
      (elements (CompressedImages resp)).
Proof. apply Ok_response_stored. Qed.

Lemma response_urls_are_stored_witness :
  URL (OriginalImage Sample.response)
  = fileURL Toy.config (originalKey "photo.jpg" Sample.start)
  ∧ originalKey "photo.jpg" Sample.start ∈ dom (objects Sample.finish)
  ∧ Forall (λ r,
      ∃ spec, spec ∈ Sample.specs
              ∧ r = variantEntry "photo.jpg" Sample.start spec
              ∧ URL r
                = fileURL Toy.config
                    (variantKey "photo.jpg" Sample.start spec)
              ∧ variantKey "photo.jpg" Sample.start spec
                ∈ dom (objects Sample.finish))
      (elements (CompressedImages Sample.response)).
Proof.
  apply (response_urls_are_stored (H := Toy.imaging) Toy.photo "photo.jpg"
           Sample.specs Sample.start Sample.response Sample.finish).
  vm_compute. reflexivity.
Defined.

(** X3: once the original is stored every spec is resized, exactly once
    and in the caller's order, whichever encodings and puts fail. *)
Theorem every_spec_is_resized_once `{Imaging}
    (fileBytes : list Byte.byte) (filename : string)
    (compressSizes : list CompressSpec) (w : World)
    (resp : UploadResponse) (w' : World) :
  ProcessAndUploadImage fileBytes filename compressSizes w = (Ok resp, w') →
  resizeCalls (trace w')
  = resizeCalls (trace w) ++ map resizeTarget compressSizes.
Proof.
  intros (img & format & _ & _ & Hloop)%ProcessAndUploadImage_Ok_inv.
  match type of Hloop with _ = processSpecs ?a ?b ?c ?d ?e ?f ?r ?w1 =>
    pose proof (processSpecs_resizeCalls a b c d e f r w1) as Hcalls end.
  rewrite <- Hloop in Hcalls. simpl in Hcalls.
  rewrite Hcalls, resizeCalls_app, <- app_assoc. reflexivity.
Qed.

Lemma every_spec_is_resized_once_witness :
  resizeCalls (trace Sample.finish)
  = resizeCalls (trace Sample.start) ++ map resizeTarget Sample.specs.
Proof.
  apply (every_spec_is_resized_once (H := Toy.imaging) Toy.photo
           "photo.jpg" Sample.specs Sample.start Sample.response
           Sample.finish).
  vm_compute. reflexivity.
Defined.

(** ** Keys of one request *)

(** The key of the original is the key of no variant. *)
Lemma originalKey_variantKey `{Imaging}
    (filename : string) (w : World) (spec : CompressSpec) :
  originalKey filename w ≠ variantKey filename w spec.
Proof.
  unfold originalKey, variantKey, keyOf, originalFileNameOf,
    compressedFileNameOf.
  intros Heq. apply (f_equal String.length) in Heq.
  rewrite !str_length_app in Heq. simpl in Heq. lia.
Qed.

(** ** The bucket around a request *)

(** X4: a request removes no key from the bucket, and a key that is
    neither the original's nor a variant's keeps the object it had,
    whether the request succeeds or not. *)
Theorem other_keys_untouched `{Imaging}
    (fileBytes : list Byte.byte) (filename : string)
    (compressSizes : list CompressSpec) (w : World) :
  dom (objects w)
  ⊆ dom (objects
           (snd (ProcessAndUploadImage fileBytes filename compressSizes w)))
  ∧ ∀ key,
      key ≠ originalKey filename w →
      (∀ spec, spec ∈ compressSizes → key ≠ variantKey filename w spec) →
      objects (snd (ProcessAndUploadImage fileBytes filename compressSizes w))
        !! key
      = objects w !! key.
Proof.
  destruct (decodeImage fileBytes) as [[img format]|err] eqn:Hdec.
  2:{ unfold ProcessAndUploadImage. rewrite Hdec. done. }
  rewrite (ProcessAndUploadImage_decoded _ _ _ _ _ _ Hdec).
  match goal with |- context [UploadFile ?b ?k ?c ?w0] =>
    destruct (UploadFile_cases b k c w0) as [(e & _ & ->)|[_ ->]] end;
    [done|].
  match goal with |- context [processSpecs ?a ?b ?c ?d ?e ?f ?r ?w1] =>
    pose proof (processSpecs_dom_mono a b c d e f r w1) as Hmono;
    pose proof (processSpecs_other_keys a b c d e f r w1) as Hother;
    destruct (processSpecs a b c d e f r w1) as [resp w2] end.
  simpl in *. split.
  - etrans; [|exact Hmono]. rewrite dom_insert. apply union_subseteq_r.
  - intros key Horig Hvar. rewrite Hother by exact Hvar.
    by apply lookup_insert_ne.
Qed.

Lemma other_keys_untouched_witness :
  objects
    (snd (ProcessAndUploadImage Toy.photo "photo.jpg" Sample.specs
            Sample.busy))
    !! "cat.png"
  = objects Sample.busy !! "cat.png".
Proof.
  apply (proj2 (other_keys_untouched (H := Toy.imaging) Toy.photo
                  "photo.jpg" Sample.specs Sample.busy) "cat.png").
  - vm_compute. discriminate.
  - intros spec Hspec. unfold Sample.specs in Hspec.
    repeat (apply elem_of_cons in Hspec as [->|Hspec];
            [vm_compute; discriminate|]).
    by apply elem_of_nil in Hspec.
Defined.

(** X5: once a request has stored the original, the bucket holds under
    the original's key the uploaded bytes, unchanged, with the content
    type of the detected format, and no variant put replaces them. *)
Theorem original_survives_variants `{Imaging}
    (fileBytes : list Byte.byte) (filename : string)
    (compressSizes : list CompressSpec) (w : World)
    (img : Image) (format : string) :
  decodeImage fileBytes = Ok (img, format) →
  fault_at w 0 = None →
  objects (snd (ProcessAndUploadImage fileBytes filename compressSizes w))
    !! originalKey filename w
  = Some (mkObject fileBytes (getContentType format)).
Proof.
  intros Hdec Hf.
  rewrite (ProcessAndUploadImage_original_stored _ _ _ _ _ _ Hdec Hf).
  match goal with |- context [processSpecs ?a ?b ?c ?d ?e ?f ?r ?w1] =>
    pose proof (processSpecs_other_keys a b c d e f r w1
                  (originalKey filename w)) as Hother;
    destruct (processSpecs a b c d e f r w1) as [resp w2] end.
  simpl in *. rewrite Hother.
  - by rewrite lookup_insert_eq.
  - intros spec _. apply originalKey_variantKey.
Qed.

Lemma original_survives_variants_witness :
  objects Sample.finish !! "photo_1234567890.jpg"
  = Some (mkObject Toy.photo "image/jpeg").
Proof.
  apply (original_survives_variants (H := Toy.imaging) Toy.photo
           "photo.jpg" Sample.specs Sample.start
           (Toy.mkRaster (Toy.sized 200 100) "jpeg") "jpeg");
    reflexivity.
Defined.

(** ** A spec that cannot be encoded *)

(** X6: when one spec fails to encode and everything else goes through,
    the request succeeds with the entries of the other specs in order;
    the failure is logged, no put is made for that spec (it uses up no
    call to the store) and the specs after it are still processed. *)
Theorem encode_failure_skips_spec `{Imaging}
    (fileBytes : list Byte.byte) (filename : string)
    (pre : list CompressSpec) (failed : CompressSpec)
    (post : list CompressSpec) (w : World)
    (img : Image) (format : string) (err : error) :
  decodeImage fileBytes = Ok (img, format) →
  Forall (encodes img format) (pre ++ post) →
  encodeOf format (resizedOf img failed) = Err err →
  (∀ i, (i ≤ length (pre ++ post))%nat → fault_at w i = None) →
  ∃ resp w',
    ProcessAndUploadImage fileBytes filename (pre ++ failed :: post) w
    = (Ok resp, w')
    ∧ CompressedImages resp
      = slice_of (map (variantEntry filename w) (pre ++ post))
    ∧ objects w'
      = foldl (putVariant filename w img format)
          (<[originalKey filename w :=
               mkObject fileBytes (getContentType format)]> (objects w))
          (pre ++ post)
    ∧ faults w' = drop (S (length (pre ++ post))) (faults w)
    ∧ trace w'
      = trace w
        ++ [CallPut (originalKey filename w) (getContentType format)]
        ++ concat (map (variantCalls filename w format) pre)
        ++ [CallResize (Go.uint (Width failed)) (Go.uint (Height failed));
            CallEncode format;
            LogPrintf ("Failed to encode compressed image: "
                         +:+ Error err)]
        ++ concat (map (variantCalls filename w format) post).
Proof.
  intros Hdec Henc Hfail Hput.
  apply Forall_app in Henc as [Hpre Hpost].
  rewrite length_app in Hput.
  rewrite (ProcessAndUploadImage_original_stored _ _ _ _ _ _ Hdec);
    [|apply Hput; lia].
  unfold initialResponse.
  rewrite processSpecs_app, processSpecs_clean; [|exact Hpre|]; cycle 1.
  { intros i Hi. rewrite fault_at_after_calls. apply Hput. lia. }
  rewrite after_calls_twice.
  rewrite processSpecs_encode_failed with (e := err) by exact Hfail.
  rewrite after_calls_twice.
  rewrite processSpecs_clean; [|exact Hpost|]; cycle 1.
  { intros i Hi. rewrite fault_at_after_calls. apply Hput. lia. }
  rewrite after_calls_twice.
  eexists _, _. split; [reflexivity|]. simpl.
  split; [|split; [|split]].
  - unfold variantEntry. by rewrite map_app.
  - unfold putVariant. by rewrite foldl_app.
  - f_equal. rewrite length_app. lia.
  - unfold variantCalls. rewrite <- !app_assoc. reflexivity.
Qed.

Lemma encode_failure_skips_spec_witness :
  ∃ resp w',
    ProcessAndUploadImage Toy.photo "photo.jpg"
      ([mkCompressSpec 80 60] ++ mkCompressSpec 7 900
         :: [mkCompressSpec 20 10])
      (Toy.world []) = (Ok resp, w')
    ∧ CompressedImages resp
      = slice_of
          [mkImageResult 80 60
             "https://bucket.s3.eu-west-1.amazonaws.com/photo_80x60_1234567890.jpg";
           mkImageResult 20 10
             "https://bucket.s3.eu-west-1.amazonaws.com/photo_20x10_1234567890.jpg"]
    ∧ putKeys (trace w')
      = ["photo_1234567890.jpg"; "photo_80x60_1234567890.jpg";
         "photo_20x10_1234567890.jpg"].
Proof.
  destruct (encode_failure_skips_spec (H := Toy.imaging) Toy.photo
              "photo.jpg" [mkCompressSpec 80 60] (mkCompressSpec 7 900)
              [mkCompressSpec 20 10] (Toy.world [])
              (Toy.mkRaster (Toy.sized 200 100) "jpeg") "jpeg"
              (errors_New "encode: invalid image size"))
    as (resp & w' & Hrun & Hvariants & _ & _ & Htrace).
  - reflexivity.
  - repeat constructor.
  - reflexivity.
  - intros [|[|[|i]]] Hi; simpl in *; try reflexivity; lia.
  - exists resp, w'. split; [exact Hrun|]. split; [exact Hvariants|].
    rewrite Htrace. reflexivity.
Defined.

(** ** The repository *)

Lemma GetFile_run fileName w :
  GetFile fileName w
  = (match fault_at w 0 with
     | Some e => Err e
     | None =>
         match objects w !! fileName with
         | Some _ => Ok true
         | None => Err (errors_New "NotFound")
         end
     end,
     after_calls w (objects w) [CallHead fileName] 1).
Proof.
  run_unfold. destruct w as [objs [|[e|] fs] c t tr]; simpl;
    try reflexivity; by destruct (objs !! fileName).
Qed.

(** X7: [GetFile] answers true exactly when the call goes through and the
    key is in the bucket; every other case is an error, never a plain
    "absent"; the bucket is left as it was. *)
Theorem GetFile_exact (fileName : string) (w : World) :
  objects (snd (GetFile fileName w)) = objects w
  ∧ fst (GetFile fileName w) ≠ Ok false
  ∧ (fst (GetFile fileName w) = Ok true ↔
     fault_at w 0 = None ∧ fileName ∈ dom (objects w)).
Proof.
  rewrite GetFile_run. simpl. split; [reflexivity|].
  destruct (fault_at w 0) as [e|]; [split; [done|]; split; [done|]|].
  { by intros [? _]. }
  destruct (objects w !! fileName) as [o|] eqn:Hk.
  - split; [done|]. split; [intros _|done]. split; [done|].
    apply elem_of_dom. by exists o.
  - split; [done|]. split; [done|]. intros [_ [o Ho]%elem_of_dom].
    congruence.
Qed.

(** X8: an upload that succeeds leaves the bytes and the content type
    under the key, returns the URL of that key, changes no other key,
    and the key is then found by [GetFile]; an upload that fails leaves
    the bucket as it was. *)
Theorem UploadFile_then_GetFile (fileBytes : list Byte.byte)
    (fileName contentType : string) (w : World) :
  (∀ url w1,
     UploadFile fileBytes fileName contentType w = (Ok url, w1) →
     url = fileURL (cfg w) fileName
     ∧ objects w1 !! fileName = Some (mkObject fileBytes contentType)
     ∧ (∀ other, other ≠ fileName →
                 objects w1 !! other = objects w !! other)
     ∧ (fault_at w1 0 = None → fst (GetFile fileName w1) = Ok true))
  ∧ (∀ e w1,
       UploadFile fileBytes fileName contentType w = (Err e, w1) →
       objects w1 = objects w).
Proof.
  destruct (UploadFile_cases fileBytes fileName contentType w)
    as [(e & _ & ->)|[_ ->]]; split; try discriminate.
  - by intros e' w1 [= _ <-].
  - intros url w1 [= <- <-]. simpl. split; [done|].
    split; [by rewrite lookup_insert_eq|].
    split; [intros other Hne; by rewrite lookup_insert_ne|].
    intros Hf. rewrite GetFile_run. simpl in *. rewrite Hf. simpl.
    by rewrite lookup_insert_eq.
Qed.

Lemma UploadFile_then_GetFile_witness :
  fst (GetFile "a.png"
         (snd (UploadFile [Byte.x89] "a.png" "image/png" (Toy.world []))))
  = Ok true.
Proof.
  destruct (proj1 (UploadFile_then_GetFile [Byte.x89] "a.png" "image/png"
                     (Toy.world []))
              "https://bucket.s3.eu-west-1.amazonaws.com/a.png"
              (snd (UploadFile [Byte.x89] "a.png" "image/png"
                      (Toy.world []))))
    as (_ & _ & _ & Hget).
  - vm_compute. reflexivity.
  - apply Hget. reflexivity.
Defined.

Lemma fileURL_inj c fileName1 fileName2 :
  fileURL c fileName1 = fileURL c fileName2 → fileName1 = fileName2.
Proof.
  unfold fileURL. destruct (bool_decide (Endpoint c ≠ "")); intros Heq;
    repeat apply (inj (String.app _)) in Heq; exact Heq.
Qed.

(** X9: within one request a URL tells the artifact: two variants have
    the same URL only when they have the same width and height, and no
    variant has the URL of the original. *)
Theorem urls_identify_artifacts `{Imaging}
    (filename : string) (w : World) :
  (∀ spec1 spec2,
     URL (variantEntry filename w spec1)
     = URL (variantEntry filename w spec2) ↔ spec1 = spec2)
  ∧ (∀ spec,
       fileURL (cfg w) (originalKey filename w)
       ≠ URL (variantEntry filename w spec)).
Proof.
  split.
  - intros spec1 spec2. split; [|by intros ->].
    intros Heq%fileURL_inj. by apply compressedFileNameOf_inj in Heq.
  - intros spec Heq%fileURL_inj.
    by apply (originalKey_variantKey filename w spec).
Qed.

(** ** Listing *)

Lemma foldl_append_elements {A} (l : list A) : ∀ s : slice A,
  elements (foldl append s l) = elements s ++ l.
Proof.
  induction l as [|x l IH]; intros s; simpl.
  - by rewrite app_nil_r.
  - rewrite IH. simpl. by rewrite <- app_assoc.
Qed.


Lemma ListFiles_run w :
  ListFiles w
  = (match fault_at w 0 with
     | Some e => Err e
     | None =>
         Ok (foldl append nil_slice
               (take maxKeys (listedKeys (objects w))))
     end,
     after_calls w (objects w) [] 1).
Proof.
  unfold ListFiles, ListObjectsV2, read_objects. run_unfold.
  destruct w as [objs [|[e|] fs] c t tr]; simpl;
    rewrite ?app_nil_r; reflexivity.
Qed.

Lemma listedKeys_Permutation (m : gmap string Object) :
  listedKeys m ≡ₚ (map_to_list m).*1.
Proof. apply merge_sort_Permutation. Qed.

Lemma elem_of_listedKeys (m : gmap string Object) k :
  k ∈ listedKeys m ↔ k ∈ dom m.
Proof.
  rewrite listedKeys_Permutation, elem_of_dom, list_elem_of_fmap.
  split.
  - intros ([k' o] & -> & Hin%elem_of_map_to_list). by exists o.
  - intros [o Ho]. exists (k, o). split; [done|].
    by apply elem_of_map_to_list.
Qed.

Lemma length_listedKeys (m : gmap string Object) :
  length (listedKeys m) = size m.
Proof.
  rewrite listedKeys_Permutation, length_fmap. apply length_map_to_list.
Qed.

Lemma ListFiles_Ok_inv (w : World)
    (names : slice string) (w' : World) :
  ListFiles w = (Ok names, w') →
  objects w' = objects w
  ∧ NoDup (elements names)
  ∧ (∀ k, k ∈ elements names → k ∈ dom (objects w))
  ∧ length (elements names) = (size (objects w) `min` maxKeys)%nat
  ∧ ((size (objects w) ≤ maxKeys)%nat →
     ∀ k, k ∈ dom (objects w) → k ∈ elements names).
Proof.
  rewrite ListFiles_run.
  destruct (fault_at w 0) as [e|]; [discriminate|].
  intros [= <- <-]. simpl. rewrite foldl_append_elements. simpl.
  split; [reflexivity|]. split; [|split; [|split]].
  - apply (sublist_NoDup _ (listedKeys (objects w)));
      [|apply sublist_take].
    rewrite listedKeys_Permutation. apply NoDup_fst_map_to_list.
  - intros k Hk. apply elem_of_listedKeys.
    by apply (elem_of_sublist _ _ _ Hk), sublist_take.
  - rewrite length_take, length_listedKeys. lia.
  - intros Hsize k Hk. rewrite take_ge
      by (rewrite length_listedKeys; exact Hsize).
    by apply elem_of_listedKeys.
Qed.

(** X10: a listing that succeeds leaves the bucket as it was and names
    keys of the bucket only, each once and at most [maxKeys] of them;
    it names every key when the bucket holds no more than that. *)
Theorem ListFiles_lists_the_bucket (w : World)
    (names : slice string) (w' : World) :
  ListFiles w = (Ok names, w') →
  objects w' = objects w
  ∧ NoDup (elements names)
  ∧ (∀ k, k ∈ elements names → k ∈ dom (objects w))
  ∧ length (elements names) = (size (objects w) `min` maxKeys)%nat
  ∧ ((size (objects w) ≤ maxKeys)%nat →
     ∀ k, k ∈ dom (objects w) → k ∈ elements names).
Proof. apply ListFiles_Ok_inv. Qed.

Lemma ListFiles_lists_the_bucket_witness :
  objects (snd (ListFiles Sample.finish)) = objects Sample.finish
  ∧ NoDup ["photo_1234567890.jpg"; "photo_20x10_1234567890.jpg";
           "photo_80x60_1234567890.jpg"]
  ∧ (∀ k, k ∈ ["photo_1234567890.jpg"; "photo_20x10_1234567890.jpg";
               "photo_80x60_1234567890.jpg"] →
          k ∈ dom (objects Sample.finish))
  ∧ 3%nat = (size (objects Sample.finish) `min` maxKeys)%nat
  ∧ ((size (objects Sample.finish) ≤ maxKeys)%nat →
     ∀ k, k ∈ dom (objects Sample.finish) →
          k ∈ ["photo_1234567890.jpg"; "photo_20x10_1234567890.jpg";
               "photo_80x60_1234567890.jpg"]).
Proof.
  apply (ListFiles_lists_the_bucket Sample.finish
           (slice_of ["photo_1234567890.jpg"; "photo_20x10_1234567890.jpg";
                      "photo_80x60_1234567890.jpg"])
           (snd (ListFiles Sample.finish))).
  vm_compute. reflexivity.
Defined.


(** X11: what a request has stored is listed afterwards: in a bucket of
    at most [maxKeys] objects a listing names the key of the original
    and the key of every variant of the response. *)
Theorem uploaded_keys_are_listed `{Imaging}
    (fileBytes : list Byte.byte) (filename : string)
    (compressSizes : list CompressSpec) (w : World)
    (resp : UploadResponse) (w1 : World)
    (names : slice string) (w2 : World) :
  ProcessAndUploadImage fileBytes filename compressSizes w = (Ok resp, w1) →
  ListImages w1 = (Ok names, w2) →
  (size (objects w1) ≤ maxKeys)%nat →
  originalKey filename w ∈ elements names
  ∧ Forall (λ r,
      ∃ spec, r = variantEntry filename w spec
              ∧ variantKey filename w spec ∈ elements names)
      (elements (CompressedImages resp)).
Proof.
  intros (_ & Horig & Hvar)%Ok_response_stored
         (_ & _ & _ & _ & Hall)%ListFiles_Ok_inv Hsize.
  split; [by apply Hall|].
  eapply Forall_impl; [exact Hvar|]. simpl.
  intros r (spec & _ & -> & _ & Hdom). exists spec.
  split; [reflexivity|]. by apply Hall.
Qed.

Lemma uploaded_keys_are_listed_witness :
  originalKey "photo.jpg" Sample.start
  ∈ ["photo_1234567890.jpg"; "photo_20x10_1234567890.jpg";
     "photo_80x60_1234567890.jpg"]
  ∧ Forall (λ r,
      ∃ spec, r = variantEntry "photo.jpg" Sample.start spec
              ∧ variantKey "photo.jpg" Sample.start spec
                ∈ ["photo_1234567890.jpg"; "photo_20x10_1234567890.jpg";
                   "photo_80x60_1234567890.jpg"])
      (elements (CompressedImages Sample.response)).
Proof.
  apply (uploaded_keys_are_listed (H := Toy.imaging) Toy.photo "photo.jpg"
           Sample.specs Sample.start Sample.response Sample.finish
           (slice_of ["photo_1234567890.jpg"; "photo_20x10_1234567890.jpg";
                      "photo_80x60_1234567890.jpg"])
           (snd (ListFiles Sample.finish))).
  - vm_compute. reflexivity.
  - vm_compute. reflexivity.
  - vm_compute. lia.
Defined.

(** ** Names written and read back *)

Lemma pretty_N_go_app x : ∀ s, pretty_N_go x s = pretty_N_go x "" +:+ s.
Proof.
  induction (N.lt_wf_0 x) as [x _ IH]. intros s.
  destruct (decide (x = 0)%N) as [->|Hx]; [by rewrite !pretty_N_go_0|].
  rewrite !(pretty_N_go_step x) by lia.
  rewrite (IH (x `div` 10)%N) by (apply N.div_lt; lia).
  rewrite (IH (x `div` 10)%N ltac:(apply N.div_lt; lia) (String _ "")).
  by rewrite str_app_assoc.
Qed.

Lemma parseDigits_app a : ∀ acc b,
  Go.parseDigits acc (a +:+ b)
  = match Go.parseDigits acc a with
    | Some v => Go.parseDigits v b
    | None => None
    end.
Proof.
  induction a as [|c a IH]; intros acc b; [done|].
  rewrite str_app_cons. simpl. destruct (Go.isDigit c); [apply IH|done].
Qed.

Lemma pretty_N_char_value n :
  (n < 10)%N → Z.of_N (N_of_ascii (pretty_N_char n)) - 48 = Z.of_N n.
Proof.
  intros Hn.
  assert (n = 0 ∨ n = 1 ∨ n = 2 ∨ n = 3 ∨ n = 4 ∨ n = 5 ∨ n = 6 ∨ n = 7
          ∨ n = 8 ∨ n = 9)%N as Hcases by lia.
  repeat destruct Hcases as [->|Hcases]; try subst n; reflexivity.
Qed.

Lemma parseDigits_pretty_N_go x :
  Go.parseDigits 0 (pretty_N_go x "") = Some (Z.of_N x).
Proof.
  induction (N.lt_wf_0 x) as [x _ IH].
  destruct (decide (x = 0)%N) as [->|Hx]; [by rewrite pretty_N_go_0|].
  rewrite pretty_N_go_step, pretty_N_go_app by lia.
  rewrite parseDigits_app, IH by (apply N.div_lt; lia). simpl.
  rewrite pretty_N_char_digit.
  rewrite pretty_N_char_value by (apply N.mod_lt; lia).
  f_equal. pose proof (N.div_mod x 10 ltac:(lia)) as Hdm.
  set (q := (x `div` 10)%N) in *. set (r := (x `mod` 10)%N) in *. lia.
Qed.

(** [%d] writes a positive number as its decimal numeral. *)
Lemma fmt_d_decimal n : 0 < n → decimal (Go.fmt_d n) n.
Proof.
  intros Hn. destruct n as [|p|p]; try lia.
  change (Go.fmt_d (Z.pos p)) with (pretty (N.pos p)).
  assert (pretty (N.pos p) = pretty_N_go (N.pos p) "") as Hgo.
  { unfold pretty, pretty_N. by destruct (decide (N.pos p = 0)%N). }
  assert (Go.parseDigits 0 (pretty (N.pos p)) = Some (Z.pos p)) as Hval
    by (rewrite Hgo; apply parseDigits_pretty_N_go).
  split; [|split; [apply pretty_N_digits|exact Hval]].
  intros Hempty. rewrite Hempty in Hval. discriminate.
Qed.

Lemma concat_app_nonempty sep (l1 l2 : list string) :
  l1 ≠ [] → l2 ≠ [] →
  String.concat sep (l1 ++ l2)
  = String.concat sep l1 +:+ sep +:+ String.concat sep l2.
Proof.
  intros H1 H2. induction l1 as [|p l1 IH]; [done|].
  destruct l1 as [|q l1].
  - destruct l2 as [|r l2]; [done|]. reflexivity.
  - change (String.concat sep ((p :: q :: l1) ++ l2))
      with (p +:+ sep +:+ String.concat sep ((q :: l1) ++ l2)).
    rewrite IH by done. rewrite (concat_cons2 sep p q l1).
    by rewrite !str_app_assoc.
Qed.

(** The variant key of any base name has the dimensions as its
    second-to-last segment when the extension has no underscore. *)
Lemma variant_key_secondToLast base spec ts ext :
  without "_" ext = true →
  secondToLast (compressedFileNameOf base spec ts ext)
    (Go.fmt_d (Width spec) +:+ "x" +:+ Go.fmt_d (Height spec)).
Proof.
  intros Hext.
  exists (Go.Split base "_"), (Go.fmt_d ts +:+ ext).
  destruct (Split_segments base "_") as (Hne & Hw & Hjoin).
  split; [by destruct (Go.Split base "_")|]. split.
  - apply Forall_app. split; [exact Hw|].
    assert (∀ a b, without "_" a = true → without "_" b = true →
                   without "_" (a +:+ b) = true) as Happ.
    { unfold without. intros a b Ha Hb. by rewrite all_bytes_app, Ha, Hb. }
    repeat constructor; repeat apply Happ;
      try (apply fmt_d_without; reflexivity); done.
  - rewrite concat_app_nonempty by done. rewrite Hjoin.
    unfold compressedFileNameOf. simpl.
    by rewrite !str_app_assoc.
Qed.

Lemma filenameDimensions_compressedFileNameOf
    (base : string) (spec : CompressSpec) (ts : Z) (ext : string) :
  without "_" ext = true →
  0 < Width spec < 2 ^ 63 →
  0 < Height spec < 2 ^ 63 →
  filenameDimensions (compressedFileNameOf base spec ts ext)
  = (Width spec, Height spec).
Proof.
  intros Hext [HW HW'] [HH HH'].
  pose proof (variant_key_secondToLast base spec ts ext Hext) as Hseg.
  assert (scansAsWxH (Go.fmt_d (Width spec) +:+ "x"
                        +:+ Go.fmt_d (Height spec))
            (Width spec) (Height spec)) as Hscan.
  { apply writtenAsWxH_scans; [|done..].
    eexists _, _. split; [reflexivity|]. split; by apply fmt_d_decimal. }
  destruct (filenameDimensions_cases
              (compressedFileNameOf base spec ts ext))
    as [(seg & W & H' & Hseg' & Hscan' & _ & _ & ->)|[Hnone _]].
  - apply secondToLast_nth in Hseg as [_ Hnth], Hseg' as [_ Hnth'].
    rewrite Hnth in Hnth'. subst seg.
    apply scansAsWxH_Split in Hscan as (a & b & Hab & Ha & Hb).
    apply scansAsWxH_Split in Hscan' as (a' & b' & Hab' & Ha' & Hb').
    rewrite Hab in Hab'. simplify_eq. reflexivity.
  - exfalso. apply Hnone. eexists _, _, _.
    split; [exact Hseg|]. split; [exact Hscan|]. lia.
Qed.

(** X12: the dimensions written into a variant key are read back from
    it: for a spec with both sides positive and below 2^63, and an
    extension without underscore, the key scans to the spec's width and
    height, whatever the base name. *)
Theorem variant_key_reads_back
    (base : string) (spec : CompressSpec) (ts : Z) (ext : string) :
  without "_" ext = true →
  0 < Width spec < 2 ^ 63 →
  0 < Height spec < 2 ^ 63 →
  filenameDimensions (compressedFileNameOf base spec ts ext)
  = (Width spec, Height spec).
Proof. apply filenameDimensions_compressedFileNameOf. Qed.

Lemma variant_key_reads_back_witness :
  filenameDimensions
    (compressedFileNameOf "summer_trip"
       (mkCompressSpec 800 600) 1234567890 ".jpg")
  = (800, 600).
Proof.
  apply (variant_key_reads_back "summer_trip"
           (mkCompressSpec 800 600) 1234567890 ".jpg");
    [reflexivity|simpl; lia..].
Defined.

(** ** Looking up what was stored *)

(** X13: a variant that a request reports is found afterwards: when the
    extension has no underscore, the reported sides are positive and
    below 2^63 and the head call goes through, [GetImageInfo] on the
    variant's key returns the width and height the request reported. *)
Theorem stored_variant_is_found `{Imaging}
    (fileBytes : list Byte.byte) (filename : string)
    (compressSizes : list CompressSpec) (w : World)
    (resp : UploadResponse) (w1 : World) (r : ImageResult) :
  ProcessAndUploadImage fileBytes filename compressSizes w = (Ok resp, w1) →
  r ∈ elements (CompressedImages resp) →
  without "_" (fileExtOf filename) = true →
  0 < irWidth r < 2 ^ 63 →
  0 < irHeight r < 2 ^ 63 →
  fault_at w1 0 = None →
  ∃ spec,
    spec ∈ compressSizes
    ∧ URL r = fileURL (cfg w) (variantKey filename w spec)
    ∧ fst (GetImageInfo (variantKey filename w spec) w1)
      = Ok (mkImageResult (irWidth r) (irHeight r)
              ("https://s3-url/" +:+ variantKey filename w spec)).
Proof.
  intros (_ & _ & Hvar)%Ok_response_stored Hr Hext HW HH Hf.
  destruct (proj1 (Forall_forall _ _) Hvar r Hr)
    as (spec & Hspec & -> & Hurl & [o Ho]%elem_of_dom).
  exists spec. split; [exact Hspec|]. split; [exact Hurl|].
  rewrite GetImageInfo_run, GetFile_run, Hf. simpl. rewrite Ho.
  unfold variantKey, keyOf.
  rewrite filenameDimensions_compressedFileNameOf by done.
  reflexivity.
Qed.

Lemma stored_variant_is_found_witness :
  ∃ spec,
    spec ∈ Sample.specs
    ∧ URL (mkImageResult 20 10
             "https://bucket.s3.eu-west-1.amazonaws.com/photo_20x10_1234567890.jpg")
      = fileURL (cfg Sample.start)
          (variantKey (H := Toy.imaging) "photo.jpg" Sample.start spec)
    ∧ fst (GetImageInfo
             (variantKey (H := Toy.imaging) "photo.jpg" Sample.start spec)
             Sample.finish)
      = Ok (mkImageResult 20 10
              ("https://s3-url/"
               +:+ variantKey (H := Toy.imaging) "photo.jpg" Sample.start
                     spec)).
Proof.
  apply (stored_variant_is_found (H := Toy.imaging) Toy.photo "photo.jpg"
           Sample.specs Sample.start Sample.response Sample.finish
           (mkImageResult 20 10
              "https://bucket.s3.eu-west-1.amazonaws.com/photo_20x10_1234567890.jpg")).
  - vm_compute. reflexivity.
  - vm_compute. apply list_elem_of_further, list_elem_of_here.
  - reflexivity.
  - simpl. lia.
  - simpl. lia.
  - reflexivity.
Defined.

(** X14: with the default AWS endpoint the URL a lookup returns is not the
    URL the upload returned for the same key: the lookup builds its URL
    from a fixed host, not from the bucket's configuration. *)
Theorem lookup_url_is_not_the_upload_url
    (filename : string) (w : World) (info : ImageResult) :
  Endpoint (cfg w) = "" →
  fst (GetImageInfo filename w) = Ok info →
  URL info = "https://s3-url/" +:+ filename
  ∧ URL info ≠ fileURL (cfg w) filename.
Proof.
  intros Hend. rewrite GetImageInfo_run.
  destruct (fst (GetFile filename w)) as [[|]|e]; try discriminate.
  intros [= <-]. simpl. split; [reflexivity|].
  unfold fileURL. rewrite Hend. simpl.
  intros Heq. apply (f_equal String.length) in Heq.
  simpl in Heq. rewrite !str_length_app in Heq. simpl in Heq. lia.
Qed.

Lemma lookup_url_is_not_the_upload_url_witness :
  URL (mkImageResult 0 0 "https://s3-url/cat.png")
  = "https://s3-url/" +:+ "cat.png"
  ∧ URL (mkImageResult 0 0 "https://s3-url/cat.png")
    ≠ fileURL (cfg Sample.busy) "cat.png".
Proof.
  apply (lookup_url_is_not_the_upload_url "cat.png" Sample.busy
           (mkImageResult 0 0 "https://s3-url/cat.png"));
    vm_compute; reflexivity.
Defined.

(** ** The handlers *)

Section HandlerFacts.
Context `{Imaging}.
Variable json_Unmarshal : string → result (list CompressSpec).

(** A request that passes the checks on the form is answered by the
    service. *)
Lemma Upload_accepted r w Filename fileBytes compressSizes :
  ParseMultipartForm r = None →
  FormFile r = Ok (Filename, Ok fileBytes) →
  fileExtOf Filename ∈ [".jpg"; ".jpeg"; ".png"] →
  compress_sizes r ≠ "" →
  json_Unmarshal (compress_sizes r) = Ok compressSizes →
  Upload json_Unmarshal r w
  = (match fst (ProcessAndUploadImage fileBytes Filename compressSizes w) with
     | Err err => respondWithError StatusInternalServerError (Error err)
     | Ok response => respondWithJSON StatusOK (UploadPayload response)
     end,
     snd (ProcessAndUploadImage fileBytes Filename compressSizes w)).
Proof.
  intros Hparse Hfile Hext Hsizes Hjson. unfold Upload.
  rewrite Hparse, Hfile. fold (fileExtOf Filename).
  assert (bool_decide (fileExtOf Filename ≠ ".jpg")
          && bool_decide (fileExtOf Filename ≠ ".jpeg")
          && bool_decide (fileExtOf Filename ≠ ".png") = false) as ->.
  { repeat (apply elem_of_cons in Hext as [->|Hext]); try reflexivity.
    by apply elem_of_nil in Hext. }
  rewrite bool_decide_eq_false_2 by exact Hsizes. rewrite Hjson.
  unfold mbind, M_bind.
  by destruct (ProcessAndUploadImage _ _ _ w) as [[response|err] w'].
Qed.


End HandlerFacts.

(** X15: an upload answered with status 400 made no call to the store or
    the image libraries and left the bucket as it was, and its body is
    an error message. *)
Theorem Upload_bad_request_touches_nothing `{Imaging}
    (json_Unmarshal : string → result (list CompressSpec))
    (r : UploadForm) (w : World) :
  code (fst (Upload json_Unmarshal r w)) = StatusBadRequest →
  snd (Upload json_Unmarshal r w) = w
  ∧ ∃ message,
      payload (fst (Upload json_Unmarshal r w)) = ErrorResponse message.
Proof.
  unfold Upload.
  destruct (ParseMultipartForm r) as [e|]; [by eauto|].
  destruct (FormFile r) as [[Filename file]|e]; [|by eauto].
  destruct (_ && _); [by eauto|].
  destruct (bool_decide _); [by eauto|].
  destruct (json_Unmarshal _) as [compressSizes|e]; [|by eauto].
  destruct file as [fileBytes|e]; [|discriminate].
  unfold mbind, M_bind.
  destruct (ProcessAndUploadImage _ _ _ w) as [[response|err] w'];
    discriminate.
Qed.

Lemma Upload_bad_request_touches_nothing_witness :
  snd (Upload (H := Toy.imaging) (λ _, Ok [])
         (mkUploadForm None (Ok ("notes.txt", Ok Toy.photo)) "[]")
         Sample.busy)
  = Sample.busy
  ∧ ∃ message,
      payload (fst (Upload (H := Toy.imaging) (λ _, Ok [])
                      (mkUploadForm None (Ok ("notes.txt", Ok Toy.photo))
                         "[]")
                      Sample.busy))
      = ErrorResponse message.
Proof.
  apply (Upload_bad_request_touches_nothing (H := Toy.imaging)
           (λ _, Ok [])
           (mkUploadForm None (Ok ("notes.txt", Ok Toy.photo)) "[]")
           Sample.busy).
  reflexivity.
Defined.



(** X17: bytes that do not decode, under an accepted file name, are
    answered with status 500 and the decode message, and nothing is
    written. *)
Theorem Upload_undecodable_is_server_error `{Imaging}
    (json_Unmarshal : string → result (list CompressSpec))
    (r : UploadForm) (w : World) (Filename : string)
    (fileBytes : list Byte.byte) (compressSizes : list CompressSpec)
    (err : error) :
  ParseMultipartForm r = None →
  FormFile r = Ok (Filename, Ok fileBytes) →
  fileExtOf Filename ∈ [".jpg"; ".jpeg"; ".png"] →
  compress_sizes r ≠ "" →
  json_Unmarshal (compress_sizes r) = Ok compressSizes →
  decodeImage fileBytes = Err err →
  Upload json_Unmarshal r w
  = (respondWithError StatusInternalServerError
       ("failed to decode image: " +:+ Error err), w).
Proof.
  intros Hparse Hfile Hext Hsizes Hjson Hdec.
  rewrite (Upload_accepted json_Unmarshal r w Filename fileBytes
             compressSizes) by done.
  unfold ProcessAndUploadImage. rewrite Hdec. reflexivity.
Qed.

Lemma Upload_undecodable_is_server_error_witness :
  Upload (H := Toy.imaging) (λ _, Ok [mkCompressSpec 80 60])
    (mkUploadForm None (Ok ("photo.jpg", Ok [Byte.x00])) "[]")
    Sample.busy
  = (respondWithError StatusInternalServerError
       ("failed to decode image: "
        +:+ Error (errors_New "image: unknown format")), Sample.busy).
Proof.
  apply (Upload_undecodable_is_server_error (H := Toy.imaging)
           (λ _, Ok [mkCompressSpec 80 60])
           (mkUploadForm None (Ok ("photo.jpg", Ok [Byte.x00])) "[]")
           Sample.busy "photo.jpg" [Byte.x00] [mkCompressSpec 80 60]
           (errors_New "image: unknown format")).
  - reflexivity.
  - reflexivity.
  - vm_compute. apply list_elem_of_here.
  - discriminate.
  - reflexivity.
  - reflexivity.
Defined.

(** X18: [GetImage] answers 200 exactly when the head call goes through
    and the key is in the bucket; in every other case, a failure of the
    store included, the answer is 404 "Image not found"; the bucket is
    left as it was. *)
Theorem GetImage_found_or_404 (filename : string) (w : World) :
  objects (snd (GetImage filename w)) = objects w
  ∧ (code (fst (GetImage filename w)) = StatusOK ↔
     fault_at w 0 = None ∧ filename ∈ dom (objects w))
  ∧ (code (fst (GetImage filename w)) ≠ StatusOK →
     fst (GetImage filename w)
     = respondWithError StatusNotFound "Image not found").
Proof.
  unfold GetImage, GetImageInfo, mbind, M_bind.
  rewrite GetFile_run.
  destruct (fault_at w 0) as [e|]; simpl.
  { split; [done|]. split; [|done]. split; [done|]. by intros [? _]. }
  destruct (objects w !! filename) as [o|] eqn:Hk; simpl.
  - destruct (filenameDimensions filename) as [width height]. simpl.
    split; [done|]. split; [|done]. split; [intros _|done].
    split; [done|]. apply elem_of_dom. by exists o.
  - split; [done|]. split; [|done]. split; [done|].
    intros [_ [o Ho]%elem_of_dom]. congruence.
Qed.

